(** * Subset selection with custom genetic operators

    A shallow embedding of the code cells of
    [doc/source/customization/subset_selection.ipynb]: the problem
    [SubsetProblem], the operators [MySampling], [BinaryCrossover] and
    [MyMutation], and the brute-force optimum of the last cell.

    Conventions.
    - A boolean numpy row is a [list bool]; an index array is a [list nat].
    - [n_max] is a Python [int], hence a [Z].  Values computed by numpy on
      integer arrays and scalars are 64-bit and wrap around ([Int64]).
    - A numpy exception is a [Raise] result.
    - [np.random] is a global generator: operators are state transformers
      over an abstract generator state (class [RandomState]).

    The definitions come first, the facts and the properties after. *)

From Stdlib Require Import ZArith Lia.
From stdpp Require Import base tactics option list numbers sorting.

Set Default Proof Using "Type".

(** * Definitions *)

(** ** Exceptions *)

Inductive exn : Set :=
| IndexError   (* an index or a boolean mask does not fit the array *)
| ValueError   (* [np.random.choice] on an empty array *)
| TypeError.   (* a slice bound that is not an integer *)

Inductive result (A : Type) : Type :=
| Ok (a : A)
| Raise (e : exn).
Arguments Ok {A} a.
Arguments Raise {A} e.

Definition rbind {A B} (r : result A) (k : A -> result B) : result B :=
  match r with Ok a => k a | Raise e => Raise e end.

(** ** 64-bit integers of numpy *)

Module Int64.

Definition modulus : Z := 2 ^ 64.
Definition half : Z := 2 ^ 63.

(** The value an [np.int64] holds after an operation whose exact result
    is [z]. *)
Definition wrap (z : Z) : Z := ((z + half) mod modulus - half)%Z.

Definition in_range (z : Z) : Prop := (- half <= z < half)%Z.

#[global] Instance in_range_dec z : Decision (in_range z).
Proof. unfold in_range. apply _. Defined.

Definition add (a b : Z) : Z := wrap (a + b).
Definition sub (a b : Z) : Z := wrap (a - b).
Definition square (a : Z) : Z := wrap (a ^ 2).

End Int64.

(** ** numpy array primitives *)

(** [np.sum] of a boolean array: the number of [True] entries. *)
Fixpoint count_true (x : list bool) : nat :=
  match x with
  | [] => 0
  | b :: x' => (if b then 1 else 0) + count_true x'
  end.

(** [np.sum] of an int64 array. *)
Definition np_sum (a : list Z) : Z := foldl Int64.add 0%Z a.

(** [a[mask]] for a boolean [mask]: the entries at the [True] positions
    ([mask_take]); numpy raises [IndexError] when the mask is not as long
    as the array, except for a mask of length zero, whose shape it does
    not check and which selects nothing ([mask_index]). *)
Fixpoint mask_take {A} (a : list A) (mask : list bool) : list A :=
  match a, mask with
  | v :: a', b :: mask' => if b then v :: mask_take a' mask' else mask_take a' mask'
  | _, _ => []
  end.

Definition mask_index {A} (a : list A) (mask : list bool) : result (list A) :=
  if decide (length mask = length a) then Ok (mask_take a mask)
  else if decide (length mask = 0) then Ok []
  else Raise IndexError.

(** [np.where(mask)[0]]: the indices of the [True] entries, ascending. *)
Fixpoint where_from (i : nat) (mask : list bool) : list nat :=
  match mask with
  | [] => []
  | b :: mask' => if b then i :: where_from (S i) mask' else where_from (S i) mask'
  end.

Definition np_where (mask : list bool) : list nat := where_from 0 mask.

Definition logical_and (p q : list bool) : list bool := zip_with andb p q.
Definition logical_xor (p q : list bool) : list bool := zip_with xorb p q.
Definition logical_not (p : list bool) : list bool := map negb p.

(** [a[:k]], with Python's reading of a negative bound. *)
Definition slice_to {A} (k : Z) (a : list A) : list A :=
  if decide (k < 0)%Z
  then take (Z.to_nat (Z.of_nat (length a) + k)) a
  else take (Z.to_nat k) a.

(** [row[mask] = v] for a boolean [mask]; a mask of another length raises
    [IndexError], except a mask of length zero, which writes nothing. *)
Definition assign_mask (mask : list bool) (v : bool) (row : list bool)
  : result (list bool) :=
  if decide (length mask = length row)
  then Ok (zip_with (fun (b y : bool) => if b then v else y) mask row)
  else if decide (length mask = 0) then Ok row
  else Raise IndexError.

(** [row[j] = v] for one index. *)
Definition assign_at (j : nat) (v : bool) (row : list bool) : result (list bool) :=
  if decide (j < length row) then Ok (<[j:=v]> row) else Raise IndexError.

(** [row[I] = v] for an index array [I]: every index is checked, then
    every position is written. *)
Definition assign_idx (I : list nat) (v : bool) (row : list bool)
  : result (list bool) :=
  if decide (Forall (fun j => j < length row) I)
  then Ok (foldl (fun r j => <[j:=v]> r) row I)
  else Raise IndexError.

(** [a[J]] for an index array [J]. *)
Definition take_idx {A} (a : list A) (J : list nat) : result (list A) :=
  match mapM (fun j => a !! j) J with
  | Some r => Ok r
  | None => Raise IndexError
  end.

(** ** The problem *)

(** [SubsetProblem.__init__] keeps the weights [L] and the target count
    [n_max].  [L] is a numpy array, so its length fits a signed 64-bit
    index. *)
Record SubsetProblem : Type := {
  L : list Z;
  n_max : Z;
  L_size : (Z.of_nat (length L) <? Int64.half)%Z = true
}.

(** [super().__init__(n_var=len(L), ...)] *)
Definition n_var (problem : SubsetProblem) : nat := length (L problem).

Record Out : Type := { F : Z; G : Z }.

(** [SubsetProblem._evaluate]:
      out["F"] = np.sum(self.L[x])
      out["G"] = (self.n_max - np.sum(x)) ** 2
    for an int64 array [L] and an [n_max] that fits int64, where numpy
    computes both in wrapping 64-bit arithmetic.  (For an [n_max] outside
    int64 numpy computes [G] as a float64 or as a Python int, which [Out]
    does not hold.) *)
Definition SubsetProblem_evaluate (problem : SubsetProblem) (x : list bool)
  : result Out :=
  rbind (mask_index (L problem) x) (fun selected =>
  Ok {| F := np_sum selected;
        G := Int64.square (Int64.sub (n_max problem) (Z.of_nat (count_true x))) |}).

(** ** Reference notions used in the statements *)

(** The exact sum of a list of integers. *)
Definition sumZ (a : list Z) : Z := foldr Z.add 0%Z a.

(** Position [i] is selected in [x]. *)
Definition selected (x : list bool) (i : nat) : Prop := x !! i = Some true.

#[global] Instance selected_dec x i : Decision (selected x i).
Proof. unfold selected. apply _. Defined.

(** The sum of the weights at the selected positions, position by
    position. *)
Definition weight_at (w : list Z) (x : list bool) (i : nat) : Z :=
  if bool_decide (selected x i) then default 0%Z (w !! i) else 0%Z.

Definition selected_weight (w : list Z) (x : list bool) : Z :=
  sumZ (map (weight_at w x) (seq 0 (length w))).

(** The number of selected positions of a candidate. *)
Definition n_selected (x : list bool) : nat :=
  length (filter (selected x) (seq 0 (length x))).

(** The number of unselected positions of a candidate. *)
Definition unselected (x : list bool) (i : nat) : Prop := x !! i = Some false.

#[global] Instance unselected_dec x i : Decision (unselected x i).
Proof. unfold unselected. apply _. Defined.

Definition n_unselected (x : list bool) : nat :=
  length (filter (unselected x) (seq 0 (length x))).

(** A candidate with no selected or no unselected position. *)
Definition degenerate (x : list bool) : Prop :=
  n_selected x = 0 \/ n_unselected x = 0.

#[global] Instance degenerate_dec x : Decision (degenerate x).
Proof. unfold degenerate. apply _. Defined.

(** Selected by both parents; selected by exactly one. *)
Definition in_both (p1 p2 : list bool) (i : nat) : Prop :=
  selected p1 i /\ selected p2 i.

Definition in_one (p1 p2 : list bool) (i : nat) : Prop :=
  (selected p1 i /\ ~ selected p2 i) \/ (~ selected p1 i /\ selected p2 i).

#[global] Instance in_both_dec p1 p2 i : Decision (in_both p1 p2 i).
Proof. unfold in_both. apply _. Defined.

#[global] Instance in_one_dec p1 p2 i : Decision (in_one p1 p2 i).
Proof. unfold in_one. apply _. Defined.

(** The sizes of the intersection and of the symmetric difference. *)
Definition n_both (p1 p2 : list bool) : nat :=
  length (filter (in_both p1 p2) (seq 0 (length p1))).

Definition n_one (p1 p2 : list bool) : nat :=
  length (filter (in_one p1 p2) (seq 0 (length p1))).

(** A candidate of the problem's shape with exactly [n_max] selections. *)
Definition feasible (problem : SubsetProblem) (x : list bool) : Prop :=
  length x = n_var problem /\ Z.of_nat (n_selected x) = n_max problem.

(** Both parents of a mating have the problem's shape. *)
Definition shaped (problem : SubsetProblem) (parents : list bool * list bool) : Prop :=
  length parents.1 = n_var problem /\ length parents.2 = n_var problem.

(** ** The random source

    [np.random] holds one generator state.  The operators use
    [np.random.permutation(n)], a permutation of [range(n)], and
    [np.random.choice(a)], which draws an index below [len(a)]. *)

Class RandomState (rng : Type) : Type := {
  random_seed : Z -> rng;
  random_permutation : nat -> rng -> list nat * rng;
  random_index : nat -> rng -> nat * rng;
  random_permutation_perm : forall n g, (random_permutation n g).1 ≡ₚ seq 0 n;
  random_index_lt : forall n g, 0 < n -> (random_index n g).1 < n
}.

(** Computations that draw from the generator and may raise. *)
Definition M (rng A : Type) : Type := rng -> result (A * rng).

Definition ret {rng A} (a : A) : M rng A := fun g => Ok (a, g).

Definition bind {rng A B} (m : M rng A) (k : A -> M rng B) : M rng B :=
  fun g => match m g with
           | Ok (a, g') => k a g'
           | Raise e => Raise e
           end.

Definition lift {rng A} (r : result A) : M rng A :=
  fun g => match r with Ok a => Ok (a, g) | Raise e => Raise e end.

Notation "'let*' x ':=' m 'in' k" := (bind m (fun x => k))
  (at level 10, x name, m at level 100, k at level 200).

(** A [for] loop that builds one row per element. *)
Fixpoint for_each {rng A B} (body : A -> M rng B) (l : list A) : M rng (list B) :=
  match l with
  | [] => ret []
  | a :: l' =>
      let* b := body a in
      let* bs := for_each body l' in
      ret (b :: bs)
  end.

(** [n_remaining = problem.n_max - np.sum(both_are_true)] of
    [BinaryCrossover._do], the Python int [n_max] minus an [np.int64]
    count, as a slice bound:
    - an [n_max] that fits int64 gives an [np.int64], wrapping around;
    - for [2^63 <= n_max < 2^64] numpy takes [n_max] as a uint64 and the
      difference is a float64, which the slice [[:n_remaining]] rejects
      with [TypeError];
    - any other [n_max] stays a Python int and the difference is exact. *)
Definition crossover_n_remaining (problem : SubsetProblem) (p1 p2 : list bool)
  : result Z :=
  let count := Z.of_nat (count_true (logical_and p1 p2)) in
  if decide (Int64.in_range (n_max problem))
  then Ok (Int64.sub (n_max problem) count)
  else if decide (Int64.half <= n_max problem < Int64.modulus)%Z
  then Raise TypeError
  else Ok (n_max problem - count)%Z.

Section Operators.

Context {rng : Type} `{RandomState rng}.

(** [np.random.permutation(n)] *)
Definition np_random_permutation (n : nat) : M rng (list nat) :=
  fun g => Ok (random_permutation n g).

(** [np.random.choice(a)] *)
Definition np_random_choice (a : list nat) : M rng nat :=
  match a with
  | [] => lift (Raise ValueError)
  | _ => fun g =>
      let '(k, g') := random_index (length a) g in
      match a !! k with
      | Some v => Ok (v, g')
      | None => Raise IndexError
      end
  end.

(** One pass of the loop of [MySampling._do]:
      I = np.random.permutation(problem.n_var)[:problem.n_max]
      X[k, I] = True *)
Definition MySampling_row (problem : SubsetProblem) : M rng (list bool) :=
  let* perm := np_random_permutation (n_var problem) in
  lift (assign_idx (slice_to (n_max problem) perm) true
          (replicate (n_var problem) false)).

(** [MySampling._do]: the rows [X[0]], ..., [X[n_samples - 1]], drawn in
    that order. *)
Definition MySampling_do (problem : SubsetProblem) (n_samples : nat)
  : M rng (list (list bool)) :=
  for_each (fun _ => MySampling_row problem) (seq 0 n_samples).

(** One pass of the loop of [BinaryCrossover._do], on the parents
    [p1 = X[0, k]] and [p2 = X[1, k]]; the offspring row [_X[0, k]]
    starts all [False] with [problem.n_var] entries:
      both_are_true = np.logical_and(p1, p2)
      _X[0, k, both_are_true] = True
      n_remaining = problem.n_max - np.sum(both_are_true)
      I = np.where(np.logical_xor(p1, p2))[0]
      S = I[np.random.permutation(len(I))][:n_remaining]
      _X[0, k, S] = True
    ([crossover_n_remaining] gives the bound the slice takes, or the
    exception it raises). *)
Definition BinaryCrossover_row (problem : SubsetProblem)
    (parents : list bool * list bool) : M rng (list bool) :=
  let '(p1, p2) := parents in
  let both_are_true := logical_and p1 p2 in
  let* row := lift (assign_mask both_are_true true
                      (replicate (n_var problem) false)) in
  let I := np_where (logical_xor p1 p2) in
  let* perm := np_random_permutation (length I) in
  let* shuffled := lift (take_idx I perm) in
  let* n_remaining := lift (crossover_n_remaining problem p1 p2) in
  let S := slice_to n_remaining shuffled in
  lift (assign_idx S true row).

(** [BinaryCrossover._do]; [X] lists the matings, each with its two
    parents, and the result lists the single offspring of each. *)
Definition BinaryCrossover_do (problem : SubsetProblem)
    (X : list (list bool * list bool)) : M rng (list (list bool)) :=
  for_each (BinaryCrossover_row problem) X.

(** One pass of the loop of [MyMutation._do]:
      is_false = np.where(np.logical_not(X[i, :]))[0]
      is_true = np.where(X[i, :])[0]
      X[i, np.random.choice(is_false)] = True
      X[i, np.random.choice(is_true)] = False *)
Definition MyMutation_row (x : list bool) : M rng (list bool) :=
  let is_false := np_where (logical_not x) in
  let is_true := np_where x in
  let* j := np_random_choice is_false in
  let* x1 := lift (assign_at j true x) in
  let* j' := np_random_choice is_true in
  lift (assign_at j' false x1).

(** [MyMutation._do]: the rows of [X] are rewritten in place, in order,
    and [X] is returned; the model returns the rewritten rows. *)
Definition MyMutation_do (X : list (list bool)) : M rng (list (list bool)) :=
  for_each MyMutation_row X.

End Operators.

(** ** What the operators establish *)

(** [m] returns from every generator state, with a value satisfying [P]. *)
Definition returns {rng A} (m : M rng A) (P : A -> Prop) : Prop :=
  forall g, exists a g', m g = Ok (a, g') /\ P a.

(** [m] raises [e] from every generator state. *)
Definition raises {rng A} (m : M rng A) (e : exn) : Prop :=
  forall g, m g = Raise e.

(** The offspring of feasible parents: the intersection, and [n_max]
    minus its size further positions, each selected by exactly one
    parent. *)
Definition crossover_post (problem : SubsetProblem)
    (parents : list bool * list bool) (off : list bool) : Prop :=
  let '(p1, p2) := parents in
  length off = n_var problem
  /\ (forall i, in_both p1 p2 i -> selected off i)
  /\ (exists S : list nat,
        NoDup S
        /\ Z.of_nat (length S) = (n_max problem - Z.of_nat (n_both p1 p2))%Z
        /\ (forall j, j ∈ S -> in_one p1 p2 j)
        /\ (forall i, selected off i <-> i ∈ S \/ in_both p1 p2 i))
  /\ (forall i, selected off i -> selected p1 i \/ selected p2 i)
  /\ Z.of_nat (n_selected off) = n_max problem.

(** The offspring of arbitrary parents of the right shape: between the
    intersection and the union. *)
Definition crossover_bounds (problem : SubsetProblem)
    (parents : list bool * list bool) (off : list bool) : Prop :=
  let '(p1, p2) := parents in
  length off = n_var problem
  /\ (forall i, in_both p1 p2 i -> selected off i)
  /\ (forall i, selected off i -> selected p1 i \/ selected p2 i)
  /\ n_selected off <= n_both p1 p2 + n_one p1 p2.

(** The offspring that takes the whole symmetric difference: it selects
    exactly the union of the parents' selections. *)
Definition crossover_union (parents : list bool * list bool) (off : list bool)
  : Prop :=
  let '(p1, p2) := parents in
  (forall i, selected off i <-> selected p1 i \/ selected p2 i)
  /\ n_selected off = n_both p1 p2 + n_one p1 p2.

(** The symmetric difference of the parents has fewer positions than
    [n_max] minus the size of their intersection. *)
Definition difference_short (problem : SubsetProblem)
    (parents : list bool * list bool) : Prop :=
  (Z.of_nat (n_one parents.1 parents.2)
   < n_max problem - Z.of_nat (n_both parents.1 parents.2))%Z.

(** ** The brute-force optimum (last cell of the notebook) *)

(** [a[i]] read as a weight. *)
Definition weight (a : list Z) (i : nat) : Z := default 0%Z (a !! i).

(** [order] is a result of [np.argsort(a)]: the indices of [a], in an
    order under which the entries ascend.  numpy's default sort is not
    stable, so equal entries may come in any order. *)
Definition is_argsort (a : list Z) (order : list nat) : Prop :=
  order ≡ₚ seq 0 (length a) /\ Sorted Z.le (weight a <$> order).

(** [np.sort] of an index array. *)
Definition np_sort (I : list nat) : list nat := merge_sort le I.

(** An argsort to execute: merge sort of the indices by their entries. *)
Definition weight_le (a : list Z) (i j : nat) : Prop := (weight a i <= weight a j)%Z.

#[global] Instance weight_le_dec a i j : Decision (weight_le a i j).
Proof. unfold weight_le. apply _. Defined.

Definition argsort (a : list Z) : list nat :=
  merge_sort (weight_le a) (seq 0 (length a)).

(**   opt = np.sort(np.argsort(L)[:n_max])
      L[opt].sum()
    with [order] the value of [np.argsort(L)]. *)
Definition brute_force (problem : SubsetProblem) (order : list nat)
  : result (list nat * Z) :=
  let opt := np_sort (slice_to (n_max problem) order) in
  rbind (take_idx (L problem) opt) (fun w => Ok (opt, np_sum w)).

(** The sum of the [k] smallest entries of [a]. *)
Definition smallest_sum (a : list Z) (k : nat) : Z :=
  sumZ (take k (merge_sort Z.le a)).

(** ** A generator and an instance to run the definitions on

    A counter: the permutation is the identity or its reverse, the index
    is the counter reduced below the bound.  It stands for no particular
    generator and only serves to execute the operators. *)

Definition counter_permutation (n : nat) (g : nat) : list nat * nat :=
  (if Nat.even g then seq 0 n else reverse (seq 0 n), S g).

Definition counter_index (n : nat) (g : nat) : nat * nat := (g mod n, S g).

#[global] Program Instance counter_rng : RandomState nat := {|
  random_seed := Z.to_nat;
  random_permutation := counter_permutation;
  random_index := counter_index
|}.
Next Obligation.
  intros n g. unfold counter_permutation. simpl.
  destruct (Nat.even g); [done | apply reverse_Permutation].
Qed.
Next Obligation.
  intros n g Hn. simpl. apply Nat.mod_upper_bound. lia.
Qed.

(** A small instance to execute the definitions on: six weights, two of
    which are to be selected. *)
Definition toy : SubsetProblem :=
  {| L := [5; 1; 4; 2; 3; 9]%Z; n_max := 2; L_size := eq_refl |}.

(** Candidates to execute the operators on. *)
Definition cand_a : list bool := [true; true; false; false; false; false].
Definition cand_b : list bool := [false; true; false; true; false; false].

(** ** Notions for the further properties *)

(** The number of entries [a[:k]] keeps of an array of [n] entries. *)
Definition slice_len (k : Z) (n : nat) : Z :=
  if decide (k < 0)%Z then Z.max 0 (Z.of_nat n + k) else Z.min k (Z.of_nat n).

(** The operators in the order the algorithm applies them to a first
    population: sampling, crossover of the matings that [pairing] forms
    from the sampled candidates, mutation of the offsprings. *)
Definition first_offsprings {rng : Type} `{RandomState rng}
    (problem : SubsetProblem)
    (pairing : list (list bool) -> list (list bool * list bool))
    (n_samples : nat) : M rng (list (list bool)) :=
  let* X := MySampling_do problem n_samples in
  let* offsprings := BinaryCrossover_do problem (pairing X) in
  MyMutation_do offsprings.

(** A pairing to execute: each candidate with the one at the mirrored
    position. *)
Definition mirror_pairing (X : list (list bool)) : list (list bool * list bool) :=
  zip X (reverse X).

(** * Facts *)

(** ** 64-bit arithmetic *)

Lemma Int64_wrap_in_range z : Int64.in_range z -> Int64.wrap z = z.
Proof.
  unfold Int64.in_range, Int64.wrap, Int64.half, Int64.modulus. intros Hz.
  rewrite Z.mod_small; lia.
Qed.

Lemma Int64_wrap_add_l a b : Int64.wrap (Int64.wrap a + b) = Int64.wrap (a + b).
Proof.
  unfold Int64.wrap, Int64.half, Int64.modulus.
  replace ((a + 2 ^ 63) mod 2 ^ 64 - 2 ^ 63 + b + 2 ^ 63)%Z
    with ((a + 2 ^ 63) mod 2 ^ 64 + b)%Z by lia.
  rewrite Zplus_mod_idemp_l. f_equal. f_equal. lia.
Qed.

Lemma Int64_in_range_of_square d : Int64.in_range (d ^ 2) -> Int64.in_range d.
Proof. unfold Int64.in_range, Int64.half. nia. Qed.

Lemma n_var_fits problem : (Z.of_nat (n_var problem) < Int64.half)%Z.
Proof. unfold n_var. apply Z.ltb_lt, L_size. Qed.

(** Beyond 64 bits the square wraps around. *)
Example Int64_square_wraps : Int64.square (2 ^ 32) = 0%Z.
Proof. reflexivity. Qed.

(** ** Sums *)

Lemma np_sum_wrap a : np_sum a = Int64.wrap (sumZ a).
Proof.
  unfold np_sum.
  assert (Hgen : forall acc, foldl Int64.add (Int64.wrap acc) a
                             = Int64.wrap (acc + sumZ a)).
  { induction a as [|v a IH]; intros acc; simpl.
    - f_equal. lia.
    - unfold Int64.add at 2. rewrite Int64_wrap_add_l, IH. f_equal. lia. }
  specialize (Hgen 0%Z). rewrite Int64_wrap_in_range in Hgen.
  - exact Hgen.
  - unfold Int64.in_range, Int64.half. lia.
Qed.

Lemma selected_weight_mask_take w x :
  length x = length w -> selected_weight w x = sumZ (mask_take w x).
Proof.
  unfold selected_weight.
  revert x. induction w as [|v w IH]; intros [|b x] Hlen; simplify_eq/=; [done|].
  rewrite <- seq_shift, map_map.
  rewrite (map_ext _ (weight_at w x)) by (intros i; reflexivity).
  rewrite IH by done.
  unfold weight_at, selected. destruct b; reflexivity.
Qed.

(** ** Positions and counts *)

Lemma elem_of_where_from k mask i :
  i ∈ where_from k mask <-> k <= i /\ selected mask (i - k).
Proof.
  unfold selected. revert k. induction mask as [|b mask IH]; intros k; simpl.
  - rewrite elem_of_nil, lookup_nil. split; [done | intros [_ ?]; done].
  - assert (Hstep : i ∈ where_from (S k) mask
                    <-> k < i /\ (b :: mask) !! (i - k) = Some true).
    { rewrite IH. split.
      - intros [Hle Hsel]. split; [lia|].
        replace (i - k) with (S (i - S k)) by lia. done.
      - intros [Hlt Hsel]. split; [lia|].
        replace (i - k) with (S (i - S k)) in Hsel by lia. done. }
    destruct b.
    + rewrite elem_of_cons, Hstep. split.
      * intros [-> | [Hlt Hsel]]; [|split; [lia|done]].
        split; [lia|]. by rewrite Nat.sub_diag.
      * intros [Hle Hsel]. destruct (decide (i = k)) as [->|Hne]; [by left|].
        right. split; [lia|done].
    + rewrite Hstep. split.
      * intros [Hlt Hsel]. split; [lia|done].
      * intros [Hle Hsel]. split; [|done].
        destruct (decide (i = k)) as [->|Hne]; [|lia].
        rewrite Nat.sub_diag in Hsel. done.
Qed.

Lemma elem_of_np_where mask i : i ∈ np_where mask <-> selected mask i.
Proof.
  unfold np_where. rewrite elem_of_where_from, Nat.sub_0_r. intuition lia.
Qed.

Lemma NoDup_where_from k mask : NoDup (where_from k mask).
Proof.
  revert k. induction mask as [|b mask IH]; intros k; simpl; [constructor|].
  destruct b; [|apply IH].
  constructor; [|apply IH].
  rewrite elem_of_where_from. lia.
Qed.

Lemma NoDup_np_where mask : NoDup (np_where mask).
Proof. apply NoDup_where_from. Qed.

Lemma length_where_from k mask : length (where_from k mask) = count_true mask.
Proof.
  revert k. induction mask as [|b mask IH]; intros k; simpl; [done|].
  destruct b; simpl; by rewrite IH.
Qed.

Lemma length_np_where mask : length (np_where mask) = count_true mask.
Proof. apply length_where_from. Qed.

Lemma selected_lt x i : selected x i -> i < length x.
Proof. unfold selected. intros Hsel. by eapply lookup_lt_Some. Qed.

(** Counting the selected positions through any duplicate-free listing. *)
Lemma n_selected_listing (idx : list nat) x :
  NoDup idx -> (forall i, i ∈ idx <-> selected x i) -> n_selected x = length idx.
Proof.
  intros Hnd Hiff. unfold n_selected. apply Permutation_length.
  apply NoDup_Permutation; [apply NoDup_filter, NoDup_seq | done |].
  intros i. rewrite list_elem_of_filter, elem_of_seq, Hiff.
  split; [tauto|]. intros Hsel. split; [done|].
  apply selected_lt in Hsel. lia.
Qed.

Lemma count_true_n_selected x : count_true x = n_selected x.
Proof.
  rewrite <- length_np_where. symmetry.
  apply n_selected_listing; [apply NoDup_np_where | apply elem_of_np_where].
Qed.

Lemma n_selected_le_length x : n_selected x <= length x.
Proof.
  unfold n_selected. etrans; [apply length_filter|]. by rewrite length_seq.
Qed.

(** ** Writing into a row *)

Lemma selected_replicate_false n i : ~ selected (replicate n false) i.
Proof.
  unfold selected. intros Hsel. apply lookup_replicate in Hsel as [? _]. done.
Qed.

Lemma selected_insert_true x j i :
  j < length x -> selected (<[j:=true]> x) i <-> i = j \/ selected x i.
Proof.
  unfold selected. intros Hj. destruct (decide (i = j)) as [->|Hne].
  - rewrite list_lookup_insert_eq by done. tauto.
  - rewrite list_lookup_insert_ne by done. intuition congruence.
Qed.

Lemma length_foldl_insert (I : list nat) (v : bool) row :
  length (foldl (fun r j => <[j:=v]> r) row I) = length row.
Proof.
  revert row. induction I as [|j I IH]; intros row; simpl; [done|].
  by rewrite IH, length_insert.
Qed.

Lemma selected_foldl_insert_true (I : list nat) row i :
  Forall (fun j => j < length row) I ->
  selected (foldl (fun r j => <[j:=true]> r) row I) i <-> i ∈ I \/ selected row i.
Proof.
  revert row. induction I as [|j I IH]; intros row Hin; simpl.
  - rewrite elem_of_nil. tauto.
  - apply Forall_cons in Hin as [Hj Hin].
    rewrite IH by (by rewrite length_insert).
    rewrite selected_insert_true, elem_of_cons by done. tauto.
Qed.

Lemma assign_idx_true_ok (I : list nat) row :
  Forall (fun j => j < length row) I ->
  exists row', assign_idx I true row = Ok row'
    /\ length row' = length row
    /\ forall i, selected row' i <-> i ∈ I \/ selected row i.
Proof.
  intros Hin. unfold assign_idx. rewrite decide_True by done.
  eexists. split; [done|]. split; [apply length_foldl_insert|].
  intros i. by apply selected_foldl_insert_true.
Qed.

Lemma assign_mask_true_ok mask row :
  length mask = length row ->
  exists row', assign_mask mask true row = Ok row'
    /\ length row' = length row
    /\ forall i, selected row' i <-> selected mask i \/ selected row i.
Proof.
  intros Hlen. unfold assign_mask. rewrite decide_True by done.
  eexists. split; [done|]. split.
  - rewrite length_zip_with. lia.
  - intros i. unfold selected. rewrite lookup_zip_with.
    destruct (mask !! i) as [[]|] eqn:Hm; destruct (row !! i) as [[]|] eqn:Hr;
      simpl; try (intuition congruence).
    + apply lookup_lt_Some in Hm. apply lookup_ge_None in Hr. lia.
    + apply lookup_ge_None in Hm. apply lookup_lt_Some in Hr. lia.
Qed.

Lemma selected_logical_and p q i :
  selected (logical_and p q) i <-> selected p i /\ selected q i.
Proof.
  unfold selected, logical_and. rewrite lookup_zip_with.
  destruct (p !! i) as [[]|]; destruct (q !! i) as [[]|]; simpl; intuition congruence.
Qed.

Lemma selected_logical_xor p q i :
  selected (logical_xor p q) i ->
  (selected p i /\ ~ selected q i) \/ (~ selected p i /\ selected q i).
Proof.
  unfold selected, logical_xor. rewrite lookup_zip_with.
  destruct (p !! i) as [[]|]; destruct (q !! i) as [[]|]; simpl; intuition congruence.
Qed.

Lemma selected_logical_xor_iff p q i :
  length p = length q ->
  selected (logical_xor p q) i <->
  (selected p i /\ ~ selected q i) \/ (~ selected p i /\ selected q i).
Proof.
  intros Hlen. split; [apply selected_logical_xor|].
  unfold selected, logical_xor. rewrite lookup_zip_with.
  destruct (p !! i) as [[]|] eqn:Hp; destruct (q !! i) as [[]|] eqn:Hq;
    simpl; try (intuition congruence).
  - apply lookup_lt_Some in Hp. apply lookup_ge_None in Hq. lia.
  - apply lookup_ge_None in Hp. apply lookup_lt_Some in Hq. lia.
Qed.

Lemma selected_logical_not x i :
  selected (logical_not x) i <-> x !! i = Some false.
Proof.
  unfold selected, logical_not. change (map negb x) with (negb <$> x).
  rewrite list_lookup_fmap.
  destruct (x !! i) as [[]|]; simpl; intuition congruence.
Qed.

(** ** Selected and unselected positions *)

Lemma count_true_insert x j (old b : bool) :
  x !! j = Some old ->
  count_true (<[j:=b]> x) + (if old then 1 else 0)
  = count_true x + (if b then 1 else 0).
Proof.
  revert j. induction x as [|a x IH]; intros [|j] Hj; simplify_eq/=.
  - destruct old, b; lia.
  - specialize (IH j Hj). lia.
Qed.

Lemma count_true_logical_not x :
  count_true (logical_not x) + count_true x = length x.
Proof. induction x as [|[] x IH]; simpl; lia. Qed.

Lemma np_where_nil mask : np_where mask = [] <-> count_true mask = 0.
Proof.
  rewrite <- length_np_where. destruct (np_where mask); simpl; split; done.
Qed.

Lemma n_unselected_not x : n_unselected x = count_true (logical_not x).
Proof.
  rewrite count_true_n_selected. symmetry.
  apply n_selected_listing; [apply NoDup_filter, NoDup_seq|].
  intros i. rewrite list_elem_of_filter, elem_of_seq, selected_logical_not.
  unfold unselected. split; [tauto|]. intros Hi. split; [done|].
  apply lookup_lt_Some in Hi. lia.
Qed.

Lemma degenerate_count x :
  degenerate x <-> count_true x = 0 \/ count_true (logical_not x) = 0.
Proof. unfold degenerate. by rewrite n_unselected_not, <- count_true_n_selected. Qed.

(** ** Reasoning about computations *)

Section Reasoning.

Context {rng : Type}.

Lemma returns_ret {A} (a : A) (P : A -> Prop) : P a -> returns (rng:=rng) (ret a) P.
Proof. intros Ha g. by exists a, g. Qed.

Lemma returns_lift {A} (r : result A) (a : A) (P : A -> Prop) :
  r = Ok a -> P a -> returns (rng:=rng) (lift r) P.
Proof. intros -> Ha g. by exists a, g. Qed.

Lemma returns_lift_eq {A} (r : result A) (a : A) :
  r = Ok a -> returns (rng:=rng) (lift r) (fun a' => a' = a).
Proof. intros Hr. by eapply returns_lift. Qed.

Lemma returns_bind {A B} (m : M rng A) (k : A -> M rng B) P Q :
  returns m P -> (forall a, P a -> returns (k a) Q) -> returns (bind m k) Q.
Proof.
  intros Hm Hk g. destruct (Hm g) as (a & g' & Hrun & Ha).
  destruct (Hk a Ha g') as (b & g'' & Hrun' & Hb).
  exists b, g''. unfold bind. by rewrite Hrun.
Qed.

Lemma returns_weaken {A} (m : M rng A) (P Q : A -> Prop) :
  returns m P -> (forall a, P a -> Q a) -> returns m Q.
Proof.
  intros Hm HPQ g. destruct (Hm g) as (a & g' & Hrun & Ha). eauto.
Qed.

Lemma returns_for_each {A B} (body : A -> M rng B) (P : A -> B -> Prop) l :
  Forall (fun a => returns (body a) (P a)) l ->
  returns (for_each body l) (Forall2 P l).
Proof.
  induction 1 as [|a l Ha Hl IH]; simpl.
  - apply returns_ret. constructor.
  - eapply returns_bind; [exact Ha|]. intros b Hb.
    eapply returns_bind; [exact IH|]. intros bs Hbs.
    apply returns_ret. by constructor.
Qed.

Lemma raises_bind {A B} (m : M rng A) (k : A -> M rng B) e :
  raises m e -> raises (bind m k) e.
Proof. intros Hm g. unfold bind. by rewrite Hm. Qed.

Lemma returns_raises_bind {A B} (m : M rng A) (k : A -> M rng B) P e :
  returns m P -> (forall a, P a -> raises (k a) e) -> raises (bind m k) e.
Proof.
  intros Hm Hk g. destruct (Hm g) as (a & g' & Hrun & Ha).
  unfold bind. rewrite Hrun. by apply Hk.
Qed.

Context `{RandomState rng}.

Lemma returns_permutation n :
  returns (np_random_permutation n) (fun perm => perm ≡ₚ seq 0 n).
Proof.
  intros g. unfold np_random_permutation.
  pose proof (random_permutation_perm n g) as Hperm.
  destruct (random_permutation n g) as [perm g']. by exists perm, g'.
Qed.

Lemma returns_choice (a : list nat) :
  a <> [] -> returns (np_random_choice a) (fun v => v ∈ a).
Proof.
  intros Hne g. unfold np_random_choice.
  destruct a as [|v0 a0] eqn:Ha; [done|]. rewrite <- Ha.
  assert (Hlen : 0 < length a) by (subst a; simpl; lia).
  pose proof (random_index_lt (length a) g Hlen) as Hlt.
  destruct (random_index (length a) g) as [k g']. simpl in Hlt.
  destruct (lookup_lt_is_Some_2 a k Hlt) as [v Hv]. rewrite Hv.
  exists v, g'. split; [done|]. by eapply list_elem_of_lookup_2.
Qed.

Lemma raises_choice_empty : raises (np_random_choice []) ValueError.
Proof. by intros g. Qed.

End Reasoning.

(** ** Slices and shuffles *)

Lemma slice_to_take {A} (k : Z) (a : list A) : exists n, slice_to k a = take n a.
Proof. unfold slice_to. case_decide; eauto. Qed.

Lemma slice_to_length {A} (k : Z) (a : list A) :
  (0 <= k <= Z.of_nat (length a))%Z -> Z.of_nat (length (slice_to k a)) = k.
Proof.
  intros Hk. unfold slice_to. rewrite decide_False by lia.
  rewrite length_take_le by lia. lia.
Qed.

Lemma slice_to_all {A} (k : Z) (a : list A) :
  (Z.of_nat (length a) <= k)%Z -> slice_to k a = a.
Proof.
  intros Hk. unfold slice_to. rewrite decide_False by lia. apply take_ge. lia.
Qed.

Lemma take_idx_shuffle (I perm : list nat) :
  perm ≡ₚ seq 0 (length I) -> exists shuffled, take_idx I perm = Ok shuffled /\ shuffled ≡ₚ I.
Proof.
  intros Hperm. unfold take_idx.
  assert (Hall : mapM (fun j => I !! j) perm
                 = Some ((fun j => default 0 (I !! j)) <$> perm)).
  { apply mapM_Some, Forall2_fmap_r, Forall_Forall2_diag, Forall_forall.
    intros j Hj. rewrite Hperm in Hj. apply elem_of_seq in Hj.
    destruct (lookup_lt_is_Some_2 I j) as [v Hv]; [lia|]. simpl. by rewrite Hv. }
  rewrite Hall. eexists. split; [done|]. rewrite Hperm.
  apply reflexive_eq, list_eq. intros i.
  rewrite list_lookup_fmap. destruct (decide (i < length I)) as [Hlt|Hge].
  - rewrite lookup_seq_lt by done. simpl.
    destruct (lookup_lt_is_Some_2 I i Hlt) as [v Hv]. by rewrite Hv.
  - rewrite lookup_seq_ge by lia. simpl. symmetry. apply lookup_ge_None. lia.
Qed.

Lemma slice_to_NoDup {A} (k : Z) (a : list A) : NoDup a -> NoDup (slice_to k a).
Proof.
  intros Hnd. destruct (slice_to_take k a) as [n ->].
  eapply sublist_NoDup; [done | apply sublist_take].
Qed.

Lemma slice_to_subseteq {A} (k : Z) (a : list A) : slice_to k a ⊆ a.
Proof. destruct (slice_to_take k a) as [n ->]. apply subseteq_take. Qed.

Lemma slice_to_length_le {A} (k : Z) (a : list A) :
  length (slice_to k a) <= length a.
Proof. destruct (slice_to_take k a) as [n ->]. rewrite length_take. lia. Qed.

(** ** Sampling *)

Section SamplingFacts.

Context {rng : Type} `{RandomState rng}.

(** A sampled row has the problem's length and selects the positions of
    a duplicate-free index list, the slice of the permutation. *)
Lemma MySampling_row_returns (problem : SubsetProblem) :
  returns (MySampling_row problem) (fun x =>
    length x = n_var problem /\
    exists perm, perm ≡ₚ seq 0 (n_var problem) /\
      n_selected x = length (slice_to (n_max problem) perm)).
Proof.
  unfold MySampling_row.
  eapply returns_bind; [apply returns_permutation|]. intros perm Hperm.
  set (S := slice_to (n_max problem) perm).
  assert (Hnd : NoDup S).
  { apply slice_to_NoDup. rewrite Hperm. apply NoDup_seq. }
  assert (Hin : Forall (fun j => j < length (replicate (n_var problem) false)) S).
  { apply Forall_forall. intros j Hj. rewrite length_replicate.
    apply slice_to_subseteq in Hj. rewrite Hperm in Hj.
    apply elem_of_seq in Hj. lia. }
  destruct (assign_idx_true_ok S _ Hin) as (x & Hx & Hlen & Hsel).
  eapply returns_lift; [exact Hx|].
  split; [by rewrite Hlen, length_replicate|].
  exists perm. split; [done|].
  apply n_selected_listing; [done|]. intros i. rewrite Hsel.
  pose proof (selected_replicate_false (n_var problem) i). tauto.
Qed.

Lemma MySampling_row_feasible (problem : SubsetProblem) :
  (0 <= n_max problem <= Z.of_nat (n_var problem))%Z ->
  returns (MySampling_row problem) (fun x =>
    length x = n_var problem /\ Z.of_nat (n_selected x) = n_max problem).
Proof.
  intros Hn. eapply returns_weaken; [apply MySampling_row_returns|].
  intros x (Hlen & perm & Hperm & Hcount). split; [done|].
  rewrite Hcount. apply slice_to_length.
  rewrite Hperm, length_seq. done.
Qed.

Lemma MySampling_do_feasible (problem : SubsetProblem) (n_samples : nat) :
  (0 <= n_max problem <= Z.of_nat (n_var problem))%Z ->
  returns (MySampling_do problem n_samples) (fun X =>
    length X = n_samples /\
    Forall (fun x => length x = n_var problem
                     /\ Z.of_nat (n_selected x) = n_max problem) X).
Proof.
  intros Hn. unfold MySampling_do.
  eapply returns_weaken.
  - apply (returns_for_each _ (fun _ x => length x = n_var problem
                                 /\ Z.of_nat (n_selected x) = n_max problem)).
    apply Forall_forall. intros k _. by apply MySampling_row_feasible.
  - intros X HX. split.
    + apply Forall2_length in HX. by rewrite length_seq in HX.
    + eapply Forall2_Forall_r; [exact HX|]. apply Forall_forall. auto.
Qed.

End SamplingFacts.

(** ** Counting over two parents *)

Lemma length_filter_split {A} (P : A -> Prop) `{forall a, Decision (P a)} (l : list A) :
  length l = length (filter P l) + length (filter (fun a => ~ P a) l).
Proof.
  rewrite <- length_app. apply Permutation_length. symmetry.
  apply filter_app_complement.
Qed.

Lemma n_selected_and_listing p q :
  n_selected (logical_and p q) = length (filter (selected q) (np_where p)).
Proof.
  apply n_selected_listing; [apply NoDup_filter, NoDup_np_where|].
  intros i. rewrite list_elem_of_filter, elem_of_np_where, selected_logical_and. tauto.
Qed.

Lemma logical_and_comm p q : logical_and p q = logical_and q p.
Proof.
  unfold logical_and. revert q. induction p as [|a p IH]; intros [|b q]; simpl; try done.
  by rewrite IH, andb_comm.
Qed.

Lemma n_selected_xor_listing p q :
  length p = length q ->
  n_selected (logical_xor p q)
  = length (filter (fun i => ~ selected q i) (np_where p))
    + length (filter (fun i => ~ selected p i) (np_where q)).
Proof.
  intros Hlen. rewrite <- length_app. apply n_selected_listing.
  - apply NoDup_app. split; [apply NoDup_filter, NoDup_np_where|].
    split; [|apply NoDup_filter, NoDup_np_where].
    intros i. rewrite !list_elem_of_filter, !elem_of_np_where. tauto.
  - intros i. rewrite elem_of_app, !list_elem_of_filter, !elem_of_np_where.
    rewrite selected_logical_xor_iff by done. tauto.
Qed.

(** Inclusion and exclusion on the selections of two parents. *)
Lemma n_selected_parents p q :
  length p = length q ->
  n_selected p = n_selected (logical_and p q)
                 + length (filter (fun i => ~ selected q i) (np_where p))
  /\ n_selected q = n_selected (logical_and p q)
                 + length (filter (fun i => ~ selected p i) (np_where q)).
Proof.
  intros Hlen. split.
  - rewrite n_selected_and_listing.
    rewrite (n_selected_listing (np_where p) p)
      by (apply NoDup_np_where || apply elem_of_np_where).
    apply length_filter_split.
  - rewrite logical_and_comm, n_selected_and_listing.
    rewrite (n_selected_listing (np_where q) q)
      by (apply NoDup_np_where || apply elem_of_np_where).
    apply length_filter_split.
Qed.

Lemma n_both_and p1 p2 : n_both p1 p2 = n_selected (logical_and p1 p2).
Proof.
  symmetry. apply n_selected_listing; [apply NoDup_filter, NoDup_seq|].
  intros i. rewrite list_elem_of_filter, elem_of_seq, selected_logical_and.
  unfold in_both. split; [tauto|]. intros [H1 H2]. split; [done|].
  apply selected_lt in H1. lia.
Qed.

Lemma n_one_xor p1 p2 :
  length p1 = length p2 -> n_one p1 p2 = n_selected (logical_xor p1 p2).
Proof.
  intros Hlen. symmetry. apply n_selected_listing; [apply NoDup_filter, NoDup_seq|].
  intros i. rewrite list_elem_of_filter, elem_of_seq, selected_logical_xor_iff by done.
  unfold in_one. split; [tauto|]. intros Hone. split; [done|].
  destruct Hone as [[Hs _]|[_ Hs]]; apply selected_lt in Hs; lia.
Qed.

Lemma n_one_parents p1 p2 :
  length p1 = length p2 ->
  n_selected p1 + n_selected p2 = 2 * n_both p1 p2 + n_one p1 p2.
Proof.
  intros Hlen. rewrite n_both_and, n_one_xor by done.
  rewrite n_selected_xor_listing by done.
  destruct (n_selected_parents p1 p2 Hlen) as [-> ->]. lia.
Qed.

Lemma n_both_le p1 p2 :
  length p1 = length p2 -> n_both p1 p2 <= n_selected p1 /\ n_both p1 p2 <= n_selected p2.
Proof.
  intros Hlen. rewrite n_both_and.
  destruct (n_selected_parents p1 p2 Hlen) as [H1 H2]. lia.
Qed.

(** ** Crossover *)

Section CrossoverFacts.

Context {rng : Type} `{RandomState rng}.

Lemma crossover_n_remaining_int64 (problem : SubsetProblem) p1 p2 :
  Int64.in_range (n_max problem) ->
  crossover_n_remaining problem p1 p2
  = Ok (Int64.sub (n_max problem) (Z.of_nat (count_true (logical_and p1 p2)))).
Proof. intros Hn. unfold crossover_n_remaining. by rewrite decide_True. Qed.

Lemma BinaryCrossover_row_returns (problem : SubsetProblem) p1 p2 n_remaining :
  length p1 = n_var problem -> length p2 = n_var problem ->
  crossover_n_remaining problem p1 p2 = Ok n_remaining ->
  returns (BinaryCrossover_row problem (p1, p2)) (fun off =>
    length off = n_var problem /\
    exists shuffled S,
      shuffled ≡ₚ np_where (logical_xor p1 p2)
      /\ S = slice_to n_remaining shuffled
      /\ (forall i, selected off i <-> i ∈ S \/ (selected p1 i /\ selected p2 i))
      /\ n_selected off = length S + n_selected (logical_and p1 p2)).
Proof.
  intros Hl1 Hl2 Hrem. unfold BinaryCrossover_row.
  destruct (assign_mask_true_ok (logical_and p1 p2)
              (replicate (n_var problem) false))
    as (row & Hrow & Hrowlen & Hrowsel).
  { unfold logical_and. rewrite length_zip_with, length_replicate. lia. }
  rewrite length_replicate in Hrowlen.
  eapply returns_bind; [by apply returns_lift_eq|]. intros ? ->.
  eapply returns_bind; [apply returns_permutation|]. intros perm Hperm.
  destruct (take_idx_shuffle _ _ Hperm) as (shuffled & Hsh & Hshperm).
  eapply returns_bind; [by apply returns_lift_eq|]. intros ? ->.
  eapply returns_bind; [by apply returns_lift_eq|]. intros ? ->.
  set (S := slice_to n_remaining shuffled).
  assert (HS : forall j, j ∈ S -> selected (logical_xor p1 p2) j).
  { intros j Hj. apply slice_to_subseteq in Hj. rewrite Hshperm in Hj.
    by apply elem_of_np_where. }
  assert (Hin : Forall (fun j => j < length row) S).
  { apply Forall_forall. intros j Hj. apply HS, selected_lt in Hj.
    unfold logical_xor in Hj. rewrite length_zip_with in Hj. lia. }
  destruct (assign_idx_true_ok S row Hin) as (off & Hoff & Hofflen & Hoffsel).
  eapply returns_lift; [exact Hoff|].
  split; [lia|]. exists shuffled, S. split; [done|]. split; [done|].
  assert (Hsel : forall i, selected off i <-> i ∈ S \/ selected p1 i /\ selected p2 i).
  { intros i. rewrite Hoffsel, Hrowsel, selected_logical_and.
    pose proof (selected_replicate_false (n_var problem) i). tauto. }
  split; [done|].
  rewrite (n_selected_listing (np_where (logical_and p1 p2)) (logical_and p1 p2))
    by (apply NoDup_np_where || apply elem_of_np_where).
  rewrite <- length_app. apply n_selected_listing.
  - apply NoDup_app. split.
    { apply slice_to_NoDup. rewrite Hshperm. apply NoDup_np_where. }
    split; [|apply NoDup_np_where].
    intros j Hj. rewrite elem_of_np_where, selected_logical_and.
    apply HS, selected_logical_xor in Hj. tauto.
  - intros i. rewrite elem_of_app, elem_of_np_where, selected_logical_and.
    symmetry. apply Hsel.
Qed.

End CrossoverFacts.

Section CrossoverClaims.

Context {rng : Type} `{RandomState rng}.

Lemma BinaryCrossover_row_bounds (problem : SubsetProblem) parents :
  Int64.in_range (n_max problem) ->
  shaped problem parents ->
  returns (BinaryCrossover_row problem parents) (fun off =>
    crossover_bounds problem parents off
    /\ (difference_short problem parents ->
        crossover_union parents off
        /\ (Z.of_nat (n_selected off) < n_max problem)%Z)).
Proof.
  destruct parents as [p1 p2]. intros Hn [Hl1 Hl2]. simpl in Hl1, Hl2.
  pose proof (crossover_n_remaining_int64 problem p1 p2 Hn) as Hrem.
  eapply returns_weaken; [by eapply BinaryCrossover_row_returns|].
  intros off (Hlen & shuffled & S & Hsh & HS & Hsel & Hcount).
  assert (Hlens : length p1 = length p2) by lia.
  assert (Hshlen : length shuffled = n_one p1 p2).
  { rewrite Hsh, length_np_where, count_true_n_selected. by rewrite n_one_xor. }
  split.
  - split; [done|]. split; [intros i Hi; apply Hsel; by right|]. split.
    + intros i [Hi|[Hi _]]%Hsel; [|by left].
      rewrite HS in Hi. apply slice_to_subseteq in Hi. rewrite Hsh in Hi.
      apply elem_of_np_where, selected_logical_xor in Hi. tauto.
    + rewrite Hcount, <- n_both_and, <- Hshlen.
      pose proof (slice_to_length_le
        (Int64.sub (n_max problem) (Z.of_nat (count_true (logical_and p1 p2))))
        shuffled). subst S. lia.
  - unfold difference_short. simpl. intros Hshort.
    pose proof (n_both_le p1 p2 Hlens) as [Hle1 _].
    assert (HSall : S = shuffled).
    { rewrite HS. apply slice_to_all. unfold Int64.sub.
      rewrite count_true_n_selected, <- n_both_and, Int64_wrap_in_range.
      - lia.
      - unfold Int64.in_range, Int64.half in *. lia. }
    assert (Hcount' : n_selected off = n_both p1 p2 + n_one p1 p2).
    { rewrite Hcount, <- n_both_and, HSall, Hshlen. lia. }
    split; [split; [|done]|lia].
    intros i. rewrite Hsel, HSall, Hsh, elem_of_np_where.
    rewrite selected_logical_xor_iff by done.
    destruct (decide (selected p1 i)), (decide (selected p2 i)); tauto.
Qed.

Lemma BinaryCrossover_row_feasible (problem : SubsetProblem) parents :
  feasible problem parents.1 -> feasible problem parents.2 ->
  returns (BinaryCrossover_row problem parents) (crossover_post problem parents).
Proof.
  destruct parents as [p1 p2]. intros [Hl1 Hn1] [Hl2 Hn2].
  simpl in Hl1, Hn1, Hl2, Hn2.
  pose proof (n_var_fits problem) as Hfits.
  pose proof (n_selected_le_length p1) as Hle.
  assert (Hlens : length p1 = length p2) by lia.
  pose proof (n_one_parents p1 p2 Hlens) as Hsplit.
  pose proof (n_both_le p1 p2 Hlens) as [Hle1 Hle2].
  assert (Hrem : crossover_n_remaining problem p1 p2
                 = Ok (n_max problem - Z.of_nat (n_both p1 p2))%Z).
  { rewrite crossover_n_remaining_int64
      by (unfold Int64.in_range, Int64.half in *; lia).
    f_equal. unfold Int64.sub. rewrite count_true_n_selected, <- n_both_and.
    apply Int64_wrap_in_range. unfold Int64.in_range, Int64.half in *. lia. }
  eapply returns_weaken; [by eapply BinaryCrossover_row_returns|].
  intros off (Hlen & shuffled & S & Hsh & HS & Hsel & Hcount).
  assert (Hshlen : length shuffled = n_one p1 p2).
  { rewrite Hsh, length_np_where, count_true_n_selected. by rewrite n_one_xor. }
  assert (HSlen : Z.of_nat (length S)
                  = (n_max problem - Z.of_nat (n_both p1 p2))%Z).
  { rewrite HS. apply slice_to_length. lia. }
  split; [done|]. split; [intros i Hi; apply Hsel; by right|].
  assert (HSone : forall j, j ∈ S -> in_one p1 p2 j).
  { intros j Hj. rewrite HS in Hj. apply slice_to_subseteq in Hj.
    rewrite Hsh in Hj. by apply elem_of_np_where, selected_logical_xor in Hj. }
  split.
  - exists S. split; [|done].
    rewrite HS. apply slice_to_NoDup. rewrite Hsh. apply NoDup_np_where.
  - split.
    + intros i [Hi|[Hi _]]%Hsel; [|by left].
      apply HSone in Hi. unfold in_one in Hi. tauto.
    + rewrite Hcount, <- n_both_and. lia.
Qed.

Lemma BinaryCrossover_do_feasible (problem : SubsetProblem) X :
  Forall (fun parents => feasible problem parents.1
                         /\ feasible problem parents.2) X ->
  returns (BinaryCrossover_do problem X) (Forall2 (crossover_post problem) X).
Proof.
  intros Hall. unfold BinaryCrossover_do. apply returns_for_each.
  eapply Forall_impl; [exact Hall|]. intros parents [H1 H2].
  by apply BinaryCrossover_row_feasible.
Qed.

Lemma BinaryCrossover_do_bounds (problem : SubsetProblem) X :
  Int64.in_range (n_max problem) ->
  Forall (shaped problem) X ->
  returns (BinaryCrossover_do problem X)
    (Forall2 (fun parents off =>
       crossover_bounds problem parents off
       /\ (difference_short problem parents ->
           crossover_union parents off
           /\ (Z.of_nat (n_selected off) < n_max problem)%Z)) X).
Proof.
  intros Hn Hall. unfold BinaryCrossover_do. apply returns_for_each.
  eapply Forall_impl; [exact Hall|]. intros parents Hs.
  by apply BinaryCrossover_row_bounds.
Qed.

(** Crossing a candidate with itself. *)
Lemma BinaryCrossover_row_self (problem : SubsetProblem) p :
  Int64.in_range (n_max problem) ->
  length p = n_var problem ->
  returns (BinaryCrossover_row problem (p, p)) (fun off => off = p).
Proof.
  intros Hn Hlen.
  pose proof (crossover_n_remaining_int64 problem p p Hn) as Hrem.
  eapply returns_weaken; [by eapply BinaryCrossover_row_returns|].
  intros off (Hofflen & shuffled & S & Hsh & HS & Hsel & _).
  assert (Hxor : np_where (logical_xor p p) = []).
  { apply np_where_nil. unfold logical_xor. clear.
    induction p as [|[] p IH]; simpl; done. }
  rewrite Hxor in Hsh. apply Permutation_nil_r in Hsh. subst shuffled.
  assert (HSnil : S = []).
  { rewrite HS. destruct (slice_to_take
      (Int64.sub (n_max problem) (Z.of_nat (count_true (logical_and p p))))
      (@nil nat)) as [n ->]. by rewrite take_nil. }
  clear HS. subst S. apply list_eq. intros i.
  destruct (decide (i < length p)) as [Hlt|Hge].
  - destruct (lookup_lt_is_Some_2 off i) as [a Ha]; [lia|].
    destruct (lookup_lt_is_Some_2 p i Hlt) as [b Hb].
    rewrite Ha, Hb. f_equal. specialize (Hsel i). unfold selected in Hsel.
    rewrite Ha, Hb, elem_of_nil in Hsel.
    destruct a, b; try done; intuition congruence.
  - rewrite !lookup_ge_None_2 by lia. done.
Qed.

End CrossoverClaims.

(** ** Mutation *)

Section MutationFacts.

Context {rng : Type} `{RandomState rng}.

Lemma MyMutation_row_returns (x : list bool) :
  ~ degenerate x ->
  returns (MyMutation_row x) (fun y =>
    length y = length x /\ n_selected y = n_selected x /\
    exists j j', x !! j = Some false /\ selected x j'
                 /\ y = <[j':=false]> (<[j:=true]> x)).
Proof.
  rewrite degenerate_count. intros Hnd.
  pose proof (count_true_logical_not x) as Hnot.
  unfold MyMutation_row.
  eapply returns_bind.
  { apply returns_choice. rewrite np_where_nil. lia. }
  intros j Hj. apply elem_of_np_where, selected_logical_not in Hj.
  pose proof (lookup_lt_Some _ _ _ Hj) as Hjlt.
  eapply returns_bind.
  { apply returns_lift_eq. unfold assign_at. by rewrite decide_True. }
  intros ? ->.
  eapply returns_bind.
  { apply returns_choice. rewrite np_where_nil. lia. }
  intros j' Hj'. apply elem_of_np_where in Hj'.
  pose proof (selected_lt _ _ Hj') as Hj'lt.
  eapply returns_lift.
  { unfold assign_at. rewrite decide_True; [done|]. by rewrite length_insert. }
  split; [by rewrite !length_insert|]. split; [|by exists j, j'].
  rewrite <- !count_true_n_selected.
  pose proof (count_true_insert x j false true Hj) as H1.
  assert (Hne : j' <> j) by (unfold selected in Hj'; congruence).
  assert (Hj1 : <[j:=true]> x !! j' = Some true).
  { by rewrite list_lookup_insert_ne. }
  pose proof (count_true_insert _ j' true false Hj1) as H2. lia.
Qed.

Lemma MyMutation_row_raises (x : list bool) :
  degenerate x -> raises (MyMutation_row x) ValueError.
Proof.
  rewrite degenerate_count. intros Hdeg.
  pose proof (count_true_logical_not x) as Hnot.
  unfold MyMutation_row.
  destruct (decide (count_true (logical_not x) = 0)) as [Hz|Hnz].
  - apply raises_bind. apply np_where_nil in Hz. rewrite Hz.
    apply raises_choice_empty.
  - eapply returns_raises_bind.
    { apply returns_choice. by rewrite np_where_nil. }
    intros j Hj. apply elem_of_np_where, selected_logical_not in Hj.
    pose proof (lookup_lt_Some _ _ _ Hj) as Hjlt.
    eapply returns_raises_bind.
    { apply returns_lift_eq. unfold assign_at. by rewrite decide_True. }
    intros ? ->. apply raises_bind.
    assert (Hz : count_true x = 0) by lia.
    apply np_where_nil in Hz. rewrite Hz. apply raises_choice_empty.
Qed.

Lemma MyMutation_do_raises (X : list (list bool)) :
  Exists degenerate X -> raises (MyMutation_do X) ValueError.
Proof.
  unfold MyMutation_do. induction X as [|x X IH]; intros Hex; [by inv Hex|].
  simpl. destruct (decide (degenerate x)) as [Hdeg|Hok].
  - apply raises_bind. by apply MyMutation_row_raises.
  - eapply returns_raises_bind; [by apply MyMutation_row_returns|].
    intros y _. apply raises_bind, IH. by inv Hex.
Qed.

Lemma MyMutation_do_returns (X : list (list bool)) :
  Forall (fun x => ~ degenerate x) X ->
  returns (MyMutation_do X)
    (Forall2 (fun x y => length y = length x /\ n_selected y = n_selected x) X).
Proof.
  intros Hall. unfold MyMutation_do. apply returns_for_each.
  eapply Forall_impl; [exact Hall|]. intros x Hx. simpl.
  eapply returns_weaken; [by apply MyMutation_row_returns|].
  intros y (Hlen & Hcount & _). done.
Qed.

End MutationFacts.

(** ** Sorting and the smallest entries *)

#[global] Instance sumZ_Permutation : Proper ((≡ₚ) ==> (=)) sumZ.
Proof. induction 1; simpl; lia. Qed.

#[global] Instance weight_le_total a : Total (weight_le a).
Proof. intros i j. unfold weight_le. lia. Qed.

Lemma argsort_is_argsort a : is_argsort a (argsort a).
Proof.
  unfold is_argsort, argsort. split; [apply merge_sort_Permutation|].
  apply (Sorted_fmap _ (weight_le a)); [done|]. apply Sorted_merge_sort. apply _.
Qed.

Lemma weight_fmap_seq a : weight a <$> seq 0 (length a) = a.
Proof.
  apply list_eq. intros i. rewrite list_lookup_fmap.
  destruct (decide (i < length a)) as [Hlt|Hge].
  - rewrite lookup_seq_lt by done. simpl. unfold weight.
    destruct (lookup_lt_is_Some_2 a i Hlt) as [v Hv]. by rewrite Hv.
  - rewrite lookup_seq_ge by lia. simpl. symmetry. apply lookup_ge_None. lia.
Qed.

Lemma take_idx_weights (a : list Z) (J : list nat) :
  Forall (fun j => j < length a) J -> take_idx a J = Ok (weight a <$> J).
Proof.
  intros Hall. unfold take_idx.
  assert (Hm : mapM (fun j => a !! j) J = Some (weight a <$> J)).
  { apply mapM_Some, Forall2_fmap_r, Forall_Forall2_diag.
    eapply Forall_impl; [exact Hall|]. intros j Hj. simpl. unfold weight.
    destruct (lookup_lt_is_Some_2 a j Hj) as [v Hv]. by rewrite Hv. }
  by rewrite Hm.
Qed.

Lemma sorted_weights_unique a order :
  is_argsort a order -> weight a <$> order = merge_sort Z.le a.
Proof.
  intros [Hperm Hsorted]. apply (Sorted_unique Z.le); [done| |].
  - apply Sorted_merge_sort. intros x y. lia.
  - rewrite merge_sort_Permutation, Hperm. by rewrite weight_fmap_seq.
Qed.

Lemma sumZ_take_shift a s n :
  StronglySorted Z.le (a :: s) -> n <= length s ->
  (sumZ (take n (a :: s)) <= sumZ (take n s))%Z.
Proof.
  revert a s. induction n as [|n IH]; intros a s Hs Hn; [done|].
  destruct s as [|b s]; [simpl in Hn; lia|]. simpl in *.
  apply StronglySorted_inv in Hs as [Hs Hb].
  apply Forall_cons in Hb as [Hab _].
  specialize (IH b s Hs). simpl in IH. lia.
Qed.

(** Any [k] entries of a sorted list weigh at least its first [k]. *)
Lemma sumZ_take_sorted s t :
  StronglySorted Z.le s -> t ⊆+ s -> (sumZ (take (length t) s) <= sumZ t)%Z.
Proof.
  intros Hs. revert t. induction Hs as [|a s Hs IH Ha]; intros t Ht.
  - apply submseteq_nil_r in Ht as ->. done.
  - apply submseteq_cons_r in Ht as [Ht | (t' & Hperm & Ht')].
    + etrans; [|by apply IH].
      apply sumZ_take_shift; [by constructor | by apply submseteq_length].
    + rewrite Hperm. simpl. specialize (IH t' Ht'). lia.
Qed.

Lemma mask_take_sublist {A} (a : list A) (x : list bool) :
  mask_take a x `sublist_of` a.
Proof.
  revert x. induction a as [|v a IH]; intros [|[] x]; simpl;
    try constructor; try apply IH; apply sublist_nil_l.
Qed.

Lemma length_mask_take {A} (a : list A) (x : list bool) :
  length x = length a -> length (mask_take a x) = count_true x.
Proof.
  revert x. induction a as [|v a IH]; intros [|[] x] Hlen; simplify_eq/=;
    try done; by rewrite IH.
Qed.

(** ** Feasible candidates can be mutated *)

Lemma feasible_not_degenerate problem x :
  (0 < n_max problem < Z.of_nat (n_var problem))%Z ->
  feasible problem x -> ~ degenerate x.
Proof.
  intros Hn [Hlen Hcount]. rewrite degenerate_count.
  pose proof (count_true_logical_not x) as Hnot.
  rewrite <- count_true_n_selected in Hcount. lia.
Qed.

(** * The properties *)

(** C1. For a boolean candidate [x] of length [n_var], evaluation returns
    the objective [F], the sum of the weights at the selected positions,
    and the violation [G], the square of [n_max] minus the number of
    selected positions; [G] is zero exactly when [n_max] positions are
    selected.  numpy computes both in 64 bits: the two exact values are
    assumed to fit. *)
Theorem SubsetProblem_evaluate_correct (problem : SubsetProblem) (x : list bool) :
  length x = n_var problem ->
  Int64.in_range (selected_weight (L problem) x) ->
  Int64.in_range ((n_max problem - Z.of_nat (n_selected x)) ^ 2) ->
  exists out,
    SubsetProblem_evaluate problem x = Ok out
    /\ F out = selected_weight (L problem) x
    /\ G out = ((n_max problem - Z.of_nat (n_selected x)) ^ 2)%Z
    /\ (G out = 0%Z <-> Z.of_nat (n_selected x) = n_max problem).
Proof.
  intros Hlen HF HG. unfold SubsetProblem_evaluate, mask_index.
  rewrite decide_True by done. simpl. eexists. split; [done|]. simpl.
  assert (HGval : Int64.square (Int64.sub (n_max problem) (Z.of_nat (count_true x)))
                  = ((n_max problem - Z.of_nat (n_selected x)) ^ 2)%Z).
  { rewrite count_true_n_selected. unfold Int64.square, Int64.sub.
    rewrite (Int64_wrap_in_range (_ - _)) by by apply Int64_in_range_of_square.
    by apply Int64_wrap_in_range. }
  split; [|split; [exact HGval|]].
  - rewrite np_sum_wrap, <- selected_weight_mask_take by done.
    by apply Int64_wrap_in_range.
  - rewrite HGval. split; [nia | intros ->; lia].
Qed.

Lemma SubsetProblem_evaluate_correct_witness :
  exists out,
    SubsetProblem_evaluate toy [true; false; false; true; false; false] = Ok out
    /\ F out = 7%Z /\ G out = 0%Z
    /\ (G out = 0%Z <-> 2%Z = 2%Z).
Proof.
  apply (SubsetProblem_evaluate_correct toy [true; false; false; true; false; false]).
  - reflexivity.
  - vm_compute. split; [discriminate | reflexivity].
  - vm_compute. split; [discriminate | reflexivity].
Defined.

(** C2.  Each operator returns, and
    - every candidate of [MySampling], when [0 <= n_max <= n_var],
    - every offspring of [BinaryCrossover] from two parents that each have
      exactly [n_max] selected positions,
    has exactly [n_max] selected positions, and
    - every output of [MyMutation] on a candidate with a selected and an
      unselected position has as many selected positions as its input. *)
Theorem operators_keep_selection_count {rng : Type} `{RandomState rng}
    (problem : SubsetProblem) :
  ((0 <= n_max problem <= Z.of_nat (n_var problem))%Z ->
   forall n_samples,
     returns (MySampling_do problem n_samples)
       (Forall (fun x => Z.of_nat (n_selected x) = n_max problem)))
  /\ (forall X,
        Forall (fun parents => feasible problem parents.1
                               /\ feasible problem parents.2) X ->
        returns (BinaryCrossover_do problem X)
          (fun offsprings =>
             length offsprings = length X
             /\ Forall (fun off => Z.of_nat (n_selected off) = n_max problem)
                  offsprings))
  /\ (forall X,
        Forall (fun x => ~ degenerate x) X ->
        returns (MyMutation_do X)
          (Forall2 (fun x y => n_selected y = n_selected x) X)).
Proof.
  split; [|split].
  - intros Hn n_samples.
    eapply returns_weaken; [by apply MySampling_do_feasible|].
    intros X [_ HX]. eapply Forall_impl; [exact HX|]. by intros x [_ Hx].
  - intros X HX.
    eapply returns_weaken; [by apply BinaryCrossover_do_feasible|].
    intros offsprings Hoff. split; [symmetry; by eapply Forall2_length|].
    eapply Forall2_Forall_r; [exact Hoff|]. apply Forall_forall.
    intros [p1 p2] _ off Hpost. apply Hpost.
  - intros X HX.
    eapply returns_weaken; [by apply MyMutation_do_returns|].
    intros Y HY. eapply Forall2_impl; [exact HY|]. by intros x y [_ Hxy].
Qed.

Lemma operators_keep_selection_count_witness :
  returns (MySampling_do (rng:=nat) toy 3)
    (Forall (fun x => Z.of_nat (n_selected x) = n_max toy))
  /\ returns (BinaryCrossover_do (rng:=nat) toy [(cand_a, cand_b)])
       (fun offsprings =>
          length offsprings = 1
          /\ Forall (fun off => Z.of_nat (n_selected off) = n_max toy) offsprings)
  /\ returns (MyMutation_do (rng:=nat) [cand_a])
       (Forall2 (fun x y => n_selected y = n_selected x) [cand_a]).
Proof.
  destruct (operators_keep_selection_count (rng:=nat) toy) as (Hs & Hc & Hm).
  split; [|split].
  - apply Hs. vm_compute. split; discriminate.
  - apply (Hc [(cand_a, cand_b)]). repeat constructor.
  - apply Hm. repeat constructor. vm_compute. intros [Hz|Hz]; discriminate.
Defined.

(** C3, as amended.  For an [n_max] that fits int64 and parents of the
    problem's shape, [BinaryCrossover] does not raise: the offspring lies
    between the intersection and the union of the parents' selections,
    and when the symmetric difference has fewer positions than [n_max]
    minus the size of the intersection, the slice takes the whole
    difference: the offspring selects exactly the union of the parents'
    selections, [|intersection| + |difference|] positions, fewer than
    [n_max]. *)
Theorem BinaryCrossover_truncates {rng : Type} `{RandomState rng}
    (problem : SubsetProblem) (X : list (list bool * list bool)) :
  Int64.in_range (n_max problem) ->
  Forall (shaped problem) X ->
  returns (BinaryCrossover_do problem X)
    (Forall2 (fun parents off =>
       crossover_bounds problem parents off
       /\ ((Z.of_nat (n_one parents.1 parents.2)
            < n_max problem - Z.of_nat (n_both parents.1 parents.2))%Z ->
           (forall i, selected off i
                      <-> selected parents.1 i \/ selected parents.2 i)
           /\ n_selected off
              = n_both parents.1 parents.2 + n_one parents.1 parents.2
           /\ (Z.of_nat (n_selected off) < n_max problem)%Z)) X).
Proof.
  intros Hn HX. eapply returns_weaken; [by apply BinaryCrossover_do_bounds|].
  intros offsprings Hoff. eapply Forall2_impl; [exact Hoff|].
  intros [p1 p2] off [Hb Hshort]. split; [done|]. simpl. intros Hlt.
  destruct (Hshort Hlt) as [[Hunion Hcount] Hless]. done.
Qed.

Lemma BinaryCrossover_truncates_witness :
  returns (BinaryCrossover_do (rng:=nat) toy
             [([true; false; false; false; false; false],
               [false; false; false; false; false; false])])
    (Forall2 (fun parents off =>
       crossover_bounds toy parents off
       /\ ((Z.of_nat (n_one parents.1 parents.2)
            < n_max toy - Z.of_nat (n_both parents.1 parents.2))%Z ->
           (forall i, selected off i
                      <-> selected parents.1 i \/ selected parents.2 i)
           /\ n_selected off
              = n_both parents.1 parents.2 + n_one parents.1 parents.2
           /\ (Z.of_nat (n_selected off) < n_max toy)%Z))
       [([true; false; false; false; false; false],
         [false; false; false; false; false; false])])
  /\ (Z.of_nat (n_one [true; false; false; false; false; false]
                  [false; false; false; false; false; false])
      < n_max toy
        - Z.of_nat (n_both [true; false; false; false; false; false]
                      [false; false; false; false; false; false]))%Z.
Proof.
  split; [|reflexivity].
  apply (BinaryCrossover_truncates (rng:=nat) toy).
  - vm_compute. split; [discriminate | reflexivity].
  - repeat constructor.
Defined.

(** C3, as stated, fails: the parents below have a symmetric difference of
    one position where two are needed, and the crossover returns an
    offspring with one selected position instead of raising. *)
Lemma BinaryCrossover_no_error :
  let problem := {| L := [1; 2; 3]%Z; n_max := 2; L_size := eq_refl |} in
  let p1 := [true; false; false] in
  let p2 := [false; false; false] in
  (Z.of_nat (n_one p1 p2) < n_max problem - Z.of_nat (n_both p1 p2))%Z
  /\ BinaryCrossover_do (rng:=nat) problem [(p1, p2)] 0
     = Ok ([[true; false; false]], 1)
  /\ (Z.of_nat (n_selected [true; false; false]) < n_max problem)%Z.
Proof. split; [reflexivity | split; reflexivity]. Qed.

(** C4.  [MyMutation] raises (numpy's [ValueError], from
    [np.random.choice] on an empty array) when a candidate has no
    selected or no unselected position, and returns when every candidate
    has a selected and an unselected position. *)
Theorem MyMutation_fails_iff_degenerate {rng : Type} `{RandomState rng}
    (X : list (list bool)) :
  (Exists degenerate X -> raises (MyMutation_do X) ValueError)
  /\ (Forall (fun x => ~ degenerate x) X ->
      returns (MyMutation_do X) (fun Y => length Y = length X)).
Proof.
  split.
  - apply MyMutation_do_raises.
  - intros HX. eapply returns_weaken; [by apply MyMutation_do_returns|].
    intros Y HY. symmetry. by eapply Forall2_length.
Qed.

Lemma MyMutation_fails_iff_degenerate_witness :
  raises (MyMutation_do (rng:=nat) [cand_a; [false; false]]) ValueError
  /\ raises (MyMutation_do (rng:=nat) [[true; true; true]]) ValueError
  /\ returns (MyMutation_do (rng:=nat) [cand_a; cand_b]) (fun Y => length Y = 2).
Proof.
  split; [|split].
  - apply (MyMutation_fails_iff_degenerate (rng:=nat)).
    apply Exists_cons_tl, Exists_cons_hd. left. reflexivity.
  - apply (MyMutation_fails_iff_degenerate (rng:=nat)).
    apply Exists_cons_hd. right. reflexivity.
  - apply (MyMutation_fails_iff_degenerate (rng:=nat) [cand_a; cand_b]).
    repeat constructor; vm_compute; intros [Hz|Hz]; discriminate.
Defined.

(** C5.  From parents that each have exactly [n_max] selected positions,
    [BinaryCrossover] returns an offspring that selects every position
    selected by both parents, selects besides them exactly [n_max] minus
    the size of the intersection positions, each selected by exactly one
    parent, and selects no position outside the union. *)
Theorem BinaryCrossover_offspring {rng : Type} `{RandomState rng}
    (problem : SubsetProblem) (X : list (list bool * list bool)) :
  Forall (fun parents => feasible problem parents.1
                         /\ feasible problem parents.2) X ->
  returns (BinaryCrossover_do problem X)
    (Forall2 (fun parents off =>
       (forall i, in_both parents.1 parents.2 i -> selected off i)
       /\ (exists S : list nat,
             NoDup S
             /\ Z.of_nat (length S)
                = (n_max problem - Z.of_nat (n_both parents.1 parents.2))%Z
             /\ (forall j, j ∈ S -> in_one parents.1 parents.2 j)
             /\ (forall i, selected off i <-> i ∈ S \/ in_both parents.1 parents.2 i))
       /\ (forall i, selected off i -> selected parents.1 i \/ selected parents.2 i))
       X).
Proof.
  intros HX.
  eapply returns_weaken; [by apply BinaryCrossover_do_feasible|].
  intros offsprings Hoff. eapply Forall2_impl; [exact Hoff|].
  intros [p1 p2] off (_ & Hboth & HS & Hunion & _). done.
Qed.

Lemma BinaryCrossover_offspring_witness :
  returns (BinaryCrossover_do (rng:=nat) toy [(cand_a, cand_b)])
    (Forall2 (fun parents off =>
       (forall i, in_both parents.1 parents.2 i -> selected off i)
       /\ (exists S : list nat,
             NoDup S
             /\ Z.of_nat (length S)
                = (n_max toy - Z.of_nat (n_both parents.1 parents.2))%Z
             /\ (forall j, j ∈ S -> in_one parents.1 parents.2 j)
             /\ (forall i, selected off i <-> i ∈ S \/ in_both parents.1 parents.2 i))
       /\ (forall i, selected off i -> selected parents.1 i \/ selected parents.2 i))
       [(cand_a, cand_b)]).
Proof.
  apply (BinaryCrossover_offspring (rng:=nat) toy [(cand_a, cand_b)]).
  repeat constructor.
Defined.

(** C6.  When [0 <= n_max <= n_var], [MySampling] returns, and evaluating
    any of its candidates yields a constraint violation of zero. *)
Theorem MySampling_feasible {rng : Type} `{RandomState rng}
    (problem : SubsetProblem) (n_samples : nat) :
  (0 <= n_max problem <= Z.of_nat (n_var problem))%Z ->
  returns (MySampling_do problem n_samples)
    (fun X =>
       length X = n_samples
       /\ Forall (fun x => exists out,
                    SubsetProblem_evaluate problem x = Ok out /\ G out = 0%Z) X).
Proof.
  intros Hn. eapply returns_weaken; [by apply MySampling_do_feasible|].
  intros X [Hlen HX]. split; [done|]. eapply Forall_impl; [exact HX|].
  intros x [Hx Hcount]. unfold SubsetProblem_evaluate, mask_index.
  rewrite decide_True by done. simpl. eexists. split; [done|]. simpl.
  rewrite count_true_n_selected, Hcount. unfold Int64.sub.
  by rewrite Z.sub_diag.
Qed.

Lemma MySampling_feasible_witness :
  returns (MySampling_do (rng:=nat) toy 3)
    (fun X =>
       length X = 3
       /\ Forall (fun x => exists out,
                    SubsetProblem_evaluate toy x = Ok out /\ G out = 0%Z) X).
Proof.
  apply (MySampling_feasible (rng:=nat) toy 3).
  vm_compute. split; discriminate.
Defined.

(** C10.  For an [n_max] that fits int64, crossing a candidate of the
    problem's shape with itself returns that candidate, however many
    positions it selects. *)
Theorem BinaryCrossover_self {rng : Type} `{RandomState rng}
    (problem : SubsetProblem) (P : list (list bool)) :
  Int64.in_range (n_max problem) ->
  Forall (fun p => length p = n_var problem) P ->
  returns (BinaryCrossover_do problem ((fun p => (p, p)) <$> P))
    (fun offsprings => offsprings = P).
Proof.
  intros Hn HP. unfold BinaryCrossover_do.
  eapply returns_weaken.
  - apply (returns_for_each _ (fun parents off => off = parents.1)).
    apply Forall_fmap. eapply Forall_impl; [exact HP|]. intros p Hp.
    by apply BinaryCrossover_row_self.
  - intros offsprings Hoff. apply Forall2_fmap_l in Hoff. simpl in Hoff.
    symmetry. clear HP. induction Hoff; simpl in *; congruence.
Qed.

Lemma BinaryCrossover_self_witness :
  returns (BinaryCrossover_do (rng:=nat) toy
             [(cand_a, cand_a); (replicate 6 true, replicate 6 true)])
    (fun offsprings => offsprings = [cand_a; replicate 6 true]).
Proof.
  apply (BinaryCrossover_self (rng:=nat) toy [cand_a; replicate 6 true]).
  - vm_compute. split; [discriminate | reflexivity].
  - repeat constructor.
Defined.

(** C7.  A candidate with exactly [n_max] selected positions has an
    objective at least the sum of the [n_max] smallest weights, and that
    sum is what the last cell computes from [np.argsort]: the brute-force
    value is a lower bound of the objective of every feasible candidate,
    so of any the genetic algorithm reports.  (The two exact sums are
    assumed to fit numpy's 64 bits.) *)
Theorem brute_force_lower_bound (problem : SubsetProblem) (order : list nat)
    (x : list bool) :
  is_argsort (L problem) order ->
  feasible problem x ->
  Int64.in_range (selected_weight (L problem) x) ->
  Int64.in_range (smallest_sum (L problem) (n_selected x)) ->
  exists out opt best,
    SubsetProblem_evaluate problem x = Ok out
    /\ brute_force problem order = Ok (opt, best)
    /\ best = smallest_sum (L problem) (Z.to_nat (n_max problem))
    /\ (smallest_sum (L problem) (Z.to_nat (n_max problem)) <= selected_weight (L problem) x)%Z
    /\ (best <= F out)%Z.
Proof.
  intros Hord [Hlen Hcount] HF Hbest.
  assert (Hk : Z.to_nat (n_max problem) = n_selected x) by lia.
  (* the objective *)
  assert (HFval : np_sum (mask_take (L problem) x) = selected_weight (L problem) x).
  { rewrite np_sum_wrap, <- selected_weight_mask_take by done.
    by apply Int64_wrap_in_range. }
  (* the brute-force value *)
  set (opt := np_sort (slice_to (n_max problem) order)).
  assert (Hopt : opt ≡ₚ take (n_selected x) order).
  { unfold opt, np_sort. rewrite merge_sort_Permutation.
    unfold slice_to. rewrite decide_False by lia. by rewrite Hk. }
  assert (Hin : Forall (fun j => j < length (L problem)) opt).
  { apply Forall_forall. intros j Hj. rewrite Hopt in Hj.
    apply subseteq_take in Hj. destruct Hord as [Hperm _].
    rewrite Hperm in Hj. apply elem_of_seq in Hj. lia. }
  assert (Hsum : sumZ (weight (L problem) <$> opt)
                 = smallest_sum (L problem) (n_selected x)).
  { rewrite Hopt, fmap_take, (sorted_weights_unique _ _ Hord). done. }
  (* any selection weighs at least the smallest entries *)
  assert (Hbound : (smallest_sum (L problem) (n_selected x)
                    <= selected_weight (L problem) x)%Z).
  { rewrite selected_weight_mask_take by done. unfold smallest_sum.
    rewrite <- count_true_n_selected, <- (length_mask_take (L problem) x) by done.
    apply sumZ_take_sorted.
    - apply StronglySorted_merge_sort; [apply _ | intros a b; lia].
    - rewrite merge_sort_Permutation.
      apply sublist_submseteq, mask_take_sublist. }
  exists {| F := np_sum (mask_take (L problem) x);
            G := Int64.square (Int64.sub (n_max problem)
                                 (Z.of_nat (count_true x))) |},
         opt, (np_sum (weight (L problem) <$> opt)).
  split.
  { unfold SubsetProblem_evaluate, mask_index. by rewrite decide_True. }
  split.
  { unfold brute_force. fold opt. by rewrite take_idx_weights. }
  rewrite np_sum_wrap, Hsum, Int64_wrap_in_range, Hk by done.
  simpl. rewrite HFval. done.
Qed.

Lemma brute_force_lower_bound_witness :
  exists out opt best,
    SubsetProblem_evaluate toy cand_a = Ok out
    /\ brute_force toy (argsort (L toy)) = Ok (opt, best)
    /\ best = smallest_sum (L toy) (Z.to_nat (n_max toy))
    /\ (smallest_sum (L toy) (Z.to_nat (n_max toy)) <= selected_weight (L toy) cand_a)%Z
    /\ (best <= F out)%Z.
Proof.
  apply (brute_force_lower_bound toy (argsort (L toy)) cand_a).
  - apply argsort_is_argsort.
  - split; reflexivity.
  - vm_compute. split; [discriminate | reflexivity].
  - vm_compute. split; [discriminate | reflexivity].
Defined.

(** * Further properties of the operators *)

(** ** Slices and index lists *)

Lemma slice_to_slice_len {A} (k : Z) (a : list A) :
  Z.of_nat (length (slice_to k a)) = slice_len k (length a).
Proof.
  unfold slice_to, slice_len. case_decide; rewrite length_take; lia.
Qed.

Lemma slice_to_same_length {A B} (k : Z) (a : list A) (b : list B) :
  length a = length b -> exists n, slice_to k a = take n a /\ slice_to k b = take n b.
Proof. intros Hlen. unfold slice_to. rewrite Hlen. case_decide; eauto. Qed.

Lemma StronglySorted_where_from k mask : StronglySorted le (where_from k mask).
Proof.
  revert k. induction mask as [|b mask IH]; intros k; simpl; [constructor|].
  destruct b; [|apply IH]. constructor; [apply IH|].
  apply Forall_forall. intros i Hi. apply elem_of_where_from in Hi. lia.
Qed.

Lemma mask_take_where_from (pre w : list Z) (x : list bool) :
  length x = length w ->
  mask_take w x = weight (pre ++ w) <$> where_from (length pre) x.
Proof.
  revert pre x. induction w as [|v w IH]; intros pre [|b x] Hlen;
    simplify_eq/=; [done|].
  specialize (IH (pre ++ [v]) x Hlen).
  rewrite <- app_assoc, length_app in IH. simpl in IH.
  rewrite Nat.add_1_r in IH. destruct b; [|done].
  rewrite fmap_cons, <- IH. f_equal.
  unfold weight. by rewrite list_lookup_middle.
Qed.

Lemma mask_take_np_where (w : list Z) (x : list bool) :
  length x = length w -> mask_take w x = weight w <$> np_where x.
Proof. intros Hlen. by apply (mask_take_where_from [] w x). Qed.

Lemma slice_to_take_len {A} (k : Z) (a : list A) :
  slice_to k a = take (Z.to_nat (slice_len k (length a))) a.
Proof.
  unfold slice_to, slice_len. case_decide.
  - f_equal. lia.
  - destruct (decide (k <= Z.of_nat (length a))%Z).
    + f_equal. lia.
    + rewrite !take_ge by lia. done.
Qed.

(** ** The brute-force optimum *)

(** What the last cell computes, for any result [order] of [np.argsort]. *)
Lemma brute_force_value problem order :
  is_argsort (L problem) order ->
  let opt := np_sort (slice_to (n_max problem) order) in
  brute_force problem order
  = Ok (opt, Int64.wrap (smallest_sum (L problem)
                           (Z.to_nat (slice_len (n_max problem) (n_var problem)))))
  /\ opt ≡ₚ slice_to (n_max problem) order
  /\ Forall (fun j => j < n_var problem) opt.
Proof.
  intros Hord opt. pose proof Hord as [Hperm _].
  assert (Hlen : length order = n_var problem).
  { rewrite Hperm. apply length_seq. }
  assert (Hopt : opt ≡ₚ slice_to (n_max problem) order).
  { apply merge_sort_Permutation. }
  assert (Hin : Forall (fun j => j < n_var problem) opt).
  { apply Forall_forall. intros j Hj. rewrite Hopt in Hj.
    apply slice_to_subseteq in Hj. rewrite Hperm in Hj.
    apply elem_of_seq in Hj. unfold n_var. lia. }
  split; [|done]. unfold brute_force. fold opt.
  rewrite take_idx_weights by done. simpl. do 2 f_equal.
  rewrite np_sum_wrap. f_equal. unfold smallest_sum.
  rewrite Hopt, slice_to_take_len, Hlen, fmap_take.
  by rewrite (sorted_weights_unique _ _ Hord).
Qed.

(** X1.  The brute-force cell never raises, whatever [n_max] is: [opt]
    lists valid indices in ascending order without repetition, as many
    as the slice [[:n_max]] keeps of [n_var] entries. *)
Theorem brute_force_opt_shape (problem : SubsetProblem) (order : list nat) :
  is_argsort (L problem) order ->
  exists opt best,
    brute_force problem order = Ok (opt, best)
    /\ Sorted le opt /\ NoDup opt
    /\ Forall (fun j => j < n_var problem) opt
    /\ Z.of_nat (length opt) = slice_len (n_max problem) (n_var problem).
Proof.
  intros Hord. destruct (brute_force_value problem order Hord) as (Hbf & Hopt & Hin).
  eexists _, _. split; [exact Hbf|].
  destruct Hord as [Hperm _].
  split; [apply Sorted_merge_sort; apply _|].
  split; [|split; [done|]].
  - rewrite Hopt. apply slice_to_NoDup. rewrite Hperm. apply NoDup_seq.
  - rewrite Hopt, slice_to_slice_len, Hperm, length_seq. done.
Qed.

Lemma brute_force_opt_shape_witness :
  exists opt best,
    brute_force toy (argsort (L toy)) = Ok (opt, best)
    /\ Sorted le opt /\ NoDup opt
    /\ Forall (fun j => j < n_var toy) opt
    /\ Z.of_nat (length opt) = slice_len (n_max toy) (n_var toy).
Proof.
  apply (brute_force_opt_shape toy (argsort (L toy))).
  apply argsort_is_argsort.
Defined.

(** X2.  The brute-force value does not depend on how [np.argsort] orders
    equal weights: any two of its possible results give the same value. *)
Theorem brute_force_value_unique (problem : SubsetProblem) (order1 order2 : list nat) :
  is_argsort (L problem) order1 ->
  is_argsort (L problem) order2 ->
  exists opt1 opt2 best,
    brute_force problem order1 = Ok (opt1, best)
    /\ brute_force problem order2 = Ok (opt2, best).
Proof.
  intros H1 H2.
  destruct (brute_force_value problem order1 H1) as (Hbf1 & _).
  destruct (brute_force_value problem order2 H2) as (Hbf2 & _).
  eexists _, _, _. split; [exact Hbf1 | exact Hbf2].
Qed.

(** Two argsorts of weights with a tie, in the two possible orders. *)
Lemma brute_force_value_unique_witness :
  let problem := {| L := [4; 1; 4; 1]%Z; n_max := 1; L_size := eq_refl |} in
  exists opt1 opt2 best,
    brute_force problem [1; 3; 0; 2] = Ok (opt1, best)
    /\ brute_force problem [3; 1; 2; 0] = Ok (opt2, best).
Proof.
  apply (brute_force_value_unique
           {| L := [4; 1; 4; 1]%Z; n_max := 1; L_size := eq_refl |}
           [1; 3; 0; 2] [3; 1; 2; 0]).
  - split; by apply (bool_decide_unpack _).
  - split; by apply (bool_decide_unpack _).
Defined.

(** X3.  The brute-force value is attained: when [0 <= n_max <= n_var],
    the candidate that selects exactly the positions of [opt] is feasible,
    [np.where] of it gives [opt] back, and its evaluation returns the
    brute-force value as objective with a constraint violation of zero.
    With the lower bound, the value is the least objective of a feasible
    candidate. *)
Theorem brute_force_attained (problem : SubsetProblem) (order : list nat) :
  is_argsort (L problem) order ->
  (0 <= n_max problem <= Z.of_nat (n_var problem))%Z ->
  exists opt best x out,
    brute_force problem order = Ok (opt, best)
    /\ feasible problem x
    /\ np_where x = opt
    /\ SubsetProblem_evaluate problem x = Ok out
    /\ F out = best /\ G out = 0%Z.
Proof.
  intros Hord Hn.
  destruct (brute_force_value problem order Hord) as (_ & Hopt & Hin).
  set (opt := np_sort (slice_to (n_max problem) order)) in *.
  pose proof Hord as [Hperm _].
  assert (Hnd : NoDup opt).
  { rewrite Hopt. apply slice_to_NoDup. rewrite Hperm. apply NoDup_seq. }
  assert (Hlen : Z.of_nat (length opt) = n_max problem).
  { rewrite Hopt, slice_to_slice_len, Hperm, length_seq.
    unfold slice_len, n_var in *. rewrite decide_False by lia. lia. }
  destruct (assign_idx_true_ok opt (replicate (n_var problem) false))
    as (x & _ & Hxlen & Hxsel).
  { by rewrite length_replicate. }
  rewrite length_replicate in Hxlen.
  assert (Hsel : forall i, i ∈ opt <-> selected x i).
  { intros i. rewrite Hxsel.
    pose proof (selected_replicate_false (n_var problem) i). tauto. }
  assert (Hwhere : np_where x = opt).
  { apply (Sorted_unique le).
    - apply StronglySorted_Sorted, StronglySorted_where_from.
    - apply Sorted_merge_sort. apply _.
    - apply NoDup_Permutation; [apply NoDup_np_where | done |].
      intros i. by rewrite elem_of_np_where, Hsel. }
  assert (Hcount : Z.of_nat (n_selected x) = n_max problem).
  { by rewrite (n_selected_listing opt x). }
  exists opt, (np_sum (weight (L problem) <$> opt)), x,
    {| F := np_sum (mask_take (L problem) x);
       G := Int64.square (Int64.sub (n_max problem) (Z.of_nat (count_true x))) |}.
  split.
  { unfold brute_force. fold opt. by rewrite take_idx_weights. }
  split; [done|]. split; [done|]. split.
  { unfold SubsetProblem_evaluate, mask_index. by rewrite decide_True. }
  simpl. split.
  - by rewrite mask_take_np_where, Hwhere.
  - rewrite count_true_n_selected, Hcount. unfold Int64.sub.
    by rewrite Z.sub_diag.
Qed.

Lemma brute_force_attained_witness :
  exists opt best x out,
    brute_force toy (argsort (L toy)) = Ok (opt, best)
    /\ feasible toy x
    /\ np_where x = opt
    /\ SubsetProblem_evaluate toy x = Ok out
    /\ F out = best /\ G out = 0%Z.
Proof.
  apply (brute_force_attained toy (argsort (L toy))).
  - apply argsort_is_argsort.
  - vm_compute. split; discriminate.
Defined.

(** ** Sampling for any target count *)

(** X4.  [MySampling] never raises, whatever [n_max] is: it returns
    [n_samples] rows of [n_var] entries, and each selects as many
    positions as the slice [[:n_max]] keeps of a permutation of [n_var]
    indices, that is [min(n_max, n_var)] for [n_max >= 0] and
    [max(0, n_var + n_max)] for a negative [n_max]. *)
Theorem MySampling_selects_slice_len {rng : Type} `{RandomState rng}
    (problem : SubsetProblem) (n_samples : nat) :
  returns (MySampling_do problem n_samples) (fun X =>
    length X = n_samples
    /\ Forall (fun x =>
         length x = n_var problem
         /\ Z.of_nat (n_selected x) = slice_len (n_max problem) (n_var problem)) X).
Proof.
  unfold MySampling_do. eapply returns_weaken.
  - apply (returns_for_each _ (fun _ x =>
      length x = n_var problem
      /\ Z.of_nat (n_selected x) = slice_len (n_max problem) (n_var problem))).
    apply Forall_forall. intros k _.
    eapply returns_weaken; [apply MySampling_row_returns|].
    intros x (Hlen & perm & Hperm & Hcount). split; [done|].
    by rewrite Hcount, slice_to_slice_len, Hperm, length_seq.
  - intros X HX. split.
    + apply Forall2_length in HX. by rewrite length_seq in HX.
    + eapply Forall2_Forall_r; [exact HX|]. apply Forall_forall. auto.
Qed.

(** ** Crossover of arbitrary parents *)

Lemma logical_xor_comm p q : logical_xor p q = logical_xor q p.
Proof.
  unfold logical_xor. revert q. induction p as [|a p IH]; intros [|b q]; simpl; try done.
  by rewrite IH, xorb_comm.
Qed.

(** X5.  For parents of the problem's shape, with any numbers of selected
    positions, and a target count [0 <= n_max < 2^63], the offspring of
    [BinaryCrossover] selects the intersection and as many further
    positions as the slice [[:n_remaining]] keeps of the symmetric
    difference, with [n_remaining = n_max - |intersection|].  When the
    intersection is larger than [n_max], [n_remaining] is negative and the
    slice drops that many positions from the end instead of keeping none:
    the offspring then has [|intersection| + max(0, |difference| +
    n_remaining)] selected positions. *)
Theorem BinaryCrossover_selects_slice_len {rng : Type} `{RandomState rng}
    (problem : SubsetProblem) (X : list (list bool * list bool)) :
  (0 <= n_max problem < Int64.half)%Z ->
  Forall (shaped problem) X ->
  returns (BinaryCrossover_do problem X)
    (Forall2 (fun parents off =>
       Z.of_nat (n_selected off)
       = (Z.of_nat (n_both parents.1 parents.2)
          + slice_len (n_max problem - Z.of_nat (n_both parents.1 parents.2))
              (n_one parents.1 parents.2))%Z) X).
Proof.
  intros Hn HX. unfold BinaryCrossover_do. apply returns_for_each.
  eapply Forall_impl; [exact HX|]. intros [p1 p2] [Hl1 Hl2]. simpl in *.
  assert (Hlens : length p1 = length p2) by lia.
  pose proof (n_both_le p1 p2 Hlens) as [Hle1 _].
  pose proof (n_selected_le_length p1) as Hle.
  pose proof (n_var_fits problem) as Hfits.
  assert (Hrem : crossover_n_remaining problem p1 p2
                 = Ok (n_max problem - Z.of_nat (n_both p1 p2))%Z).
  { rewrite crossover_n_remaining_int64
      by (unfold Int64.in_range, Int64.half in *; lia).
    f_equal. unfold Int64.sub. rewrite count_true_n_selected, <- n_both_and.
    apply Int64_wrap_in_range. unfold Int64.in_range, Int64.half in *. lia. }
  eapply returns_weaken; [by eapply BinaryCrossover_row_returns|].
  intros off (_ & shuffled & S & Hsh & HS & _ & Hcount).
  assert (Hshlen : length shuffled = n_one p1 p2).
  { rewrite Hsh, length_np_where, count_true_n_selected. by rewrite n_one_xor. }
  rewrite Hcount, <- n_both_and, HS, Nat2Z.inj_add, slice_to_slice_len.
  rewrite Hshlen. lia.
Qed.

(** Parents that share two positions where one is wanted: the offspring
    selects three. *)
Lemma BinaryCrossover_selects_slice_len_witness :
  let problem := {| L := [1; 2; 3; 4]%Z; n_max := 1; L_size := eq_refl |} in
  let p1 := [true; true; true; false] in
  let p2 := [true; true; false; true] in
  returns (BinaryCrossover_do (rng:=nat) problem [(p1, p2)])
    (Forall2 (fun parents off =>
       Z.of_nat (n_selected off)
       = (Z.of_nat (n_both parents.1 parents.2)
          + slice_len (n_max problem - Z.of_nat (n_both parents.1 parents.2))
              (n_one parents.1 parents.2))%Z) [(p1, p2)])
  /\ (Z.of_nat (n_both p1 p2)
      + slice_len (n_max problem - Z.of_nat (n_both p1 p2)) (n_one p1 p2) = 3)%Z.
Proof.
  split; [|reflexivity].
  apply (BinaryCrossover_selects_slice_len (rng:=nat)
           {| L := [1; 2; 3; 4]%Z; n_max := 1; L_size := eq_refl |}).
  - vm_compute. split; [discriminate | reflexivity].
  - repeat constructor.
Defined.

(** X6.  When the rows of [X] have a length that is neither zero nor
    [problem.n_var], [BinaryCrossover] raises [IndexError] at the first
    mating: the mask [both_are_true] does not fit the offspring row.
    (numpy does not check the shape of a mask of length zero.) *)
Theorem BinaryCrossover_shape_mismatch {rng : Type} `{RandomState rng}
    (problem : SubsetProblem) (X : list (list bool * list bool)) (width : nat) :
  X <> [] ->
  Forall (fun parents => length parents.1 = width /\ length parents.2 = width) X ->
  width <> 0 ->
  width <> n_var problem ->
  raises (BinaryCrossover_do problem X) IndexError.
Proof.
  intros Hne HX Hzero Hwidth. destruct X as [|[p1 p2] X]; [done|].
  apply Forall_cons in HX as [[Hl1 Hl2] _]. simpl in Hl1, Hl2.
  unfold BinaryCrossover_do. simpl. apply raises_bind.
  unfold BinaryCrossover_row. apply raises_bind.
  assert (Hlen : length (logical_and p1 p2) = width).
  { unfold logical_and. rewrite length_zip_with. lia. }
  unfold assign_mask. rewrite Hlen, length_replicate.
  rewrite decide_False by done. rewrite decide_False by done. by intros g.
Qed.

Lemma BinaryCrossover_shape_mismatch_witness :
  raises (BinaryCrossover_do (rng:=nat) toy [([true; false], [false; true])])
    IndexError.
Proof.
  apply (BinaryCrossover_shape_mismatch (rng:=nat) toy _ 2).
  - discriminate.
  - repeat constructor.
  - discriminate.
  - vm_compute. discriminate.
Defined.

Lemma for_each_fmap_ext {rng A B C} (f : B -> M rng C) (f' : A -> M rng C)
    (h : A -> B) (l : list A) :
  (forall a g, f (h a) g = f' a g) ->
  forall g, for_each f (h <$> l) g = for_each f' l g.
Proof.
  intros Hext. induction l as [|a l IH]; intros g; [done|].
  rewrite fmap_cons. cbn [for_each]. unfold bind. rewrite Hext.
  destruct (f' a g) as [[b g']|e]; [|done]. by rewrite IH.
Qed.

(** X7.  [BinaryCrossover] does not depend on the order of the two
    parents: from the same generator state, swapping the parents of every
    mating gives the same offsprings and the same generator state. *)
Theorem BinaryCrossover_parents_swap {rng : Type} `{RandomState rng}
    (problem : SubsetProblem) (X : list (list bool * list bool)) (g : rng) :
  BinaryCrossover_do problem (prod_swap <$> X) g = BinaryCrossover_do problem X g.
Proof.
  unfold BinaryCrossover_do. apply for_each_fmap_ext.
  intros [p1 p2] g'. unfold BinaryCrossover_row, crossover_n_remaining, prod_swap.
  simpl. by rewrite (logical_and_comm p2 p1), (logical_xor_comm p2 p1).
Qed.

(** ** Mutation as a swap *)

(** X8.  On candidates with a selected and an unselected position,
    [MyMutation] performs exactly one swap on each row: one position [j]
    that was [False] becomes [True], one position [j'] that was [True]
    becomes [False], every other position keeps its value; the output
    has the length of the input and is never equal to it. *)
Theorem MyMutation_single_swap {rng : Type} `{RandomState rng}
    (X : list (list bool)) :
  Forall (fun x => ~ degenerate x) X ->
  returns (MyMutation_do X)
    (Forall2 (fun x y =>
       length y = length x /\ y <> x
       /\ exists j j',
            x !! j = Some false /\ y !! j = Some true
            /\ x !! j' = Some true /\ y !! j' = Some false
            /\ forall i, i <> j -> i <> j' -> y !! i = x !! i) X).
Proof.
  intros HX. unfold MyMutation_do. apply returns_for_each.
  eapply Forall_impl; [exact HX|]. intros x Hx. simpl.
  eapply returns_weaken; [by apply MyMutation_row_returns|].
  intros y (Hlen & _ & j & j' & Hj & Hj' & ->). unfold selected in Hj'.
  assert (Hne : j' <> j) by congruence.
  pose proof (lookup_lt_Some _ _ _ Hj) as Hjlt.
  pose proof (lookup_lt_Some _ _ _ Hj') as Hj'lt.
  assert (Hyj : <[j':=false]> (<[j:=true]> x) !! j = Some true).
  { rewrite list_lookup_insert_ne by done. by rewrite list_lookup_insert_eq. }
  split; [done|]. split.
  - intros Heq. rewrite Heq in Hyj. congruence.
  - exists j, j'. split; [done|]. split; [done|]. split; [done|]. split.
    + rewrite list_lookup_insert_eq; [done|]. by rewrite length_insert.
    + intros i Hi Hi'. by rewrite !list_lookup_insert_ne.
Qed.

Lemma MyMutation_single_swap_witness :
  returns (MyMutation_do (rng:=nat) [cand_a; cand_b])
    (Forall2 (fun x y =>
       length y = length x /\ y <> x
       /\ exists j j',
            x !! j = Some false /\ y !! j = Some true
            /\ x !! j' = Some true /\ y !! j' = Some false
            /\ forall i, i <> j -> i <> j' -> y !! i = x !! i) [cand_a; cand_b]).
Proof.
  apply (MyMutation_single_swap (rng:=nat) [cand_a; cand_b]).
  repeat constructor; vm_compute; intros [Hz|Hz]; discriminate.
Defined.

Lemma mask_sum_insert (w : list Z) (x : list bool) (j : nat) (old b : bool) :
  length x = length w -> x !! j = Some old ->
  (sumZ (mask_take w (<[j:=b]> x)) + (if old then weight w j else 0)
   = sumZ (mask_take w x) + (if b then weight w j else 0))%Z.
Proof.
  revert x j. induction w as [|v w IH]; intros [|a x] [|j] Hlen Hj; simplify_eq/=.
  - unfold weight. simpl. destruct old, b; simpl; lia.
  - specialize (IH x j Hlen Hj). unfold weight in *. simpl.
    destruct a; simpl; lia.
Qed.

(** X9.  Evaluating a candidate of the problem's length before and after
    [MyMutation]: the constraint violation is the same, and the objective
    changes by the weight of the position that was switched on minus the
    weight of the position that was switched off (in numpy's 64-bit
    arithmetic). *)
Theorem MyMutation_evaluation {rng : Type} `{RandomState rng}
    (problem : SubsetProblem) (X : list (list bool)) :
  Forall (fun x => length x = n_var problem /\ ~ degenerate x) X ->
  returns (MyMutation_do X)
    (Forall2 (fun x y =>
       exists out out' j j',
         SubsetProblem_evaluate problem x = Ok out
         /\ SubsetProblem_evaluate problem y = Ok out'
         /\ x !! j = Some false /\ x !! j' = Some true
         /\ y = <[j':=false]> (<[j:=true]> x)
         /\ G out' = G out
         /\ F out' = Int64.wrap (F out + weight (L problem) j
                                 - weight (L problem) j')) X).
Proof.
  intros HX. unfold MyMutation_do. apply returns_for_each.
  eapply Forall_impl; [exact HX|]. intros x [Hxlen Hx]. simpl.
  eapply returns_weaken; [by apply MyMutation_row_returns|].
  intros y (Hlen & Hcount & j & j' & Hj & Hj' & ->). unfold selected in Hj'.
  set (y := <[j':=false]> (<[j:=true]> x)) in *.
  assert (Hne : j' <> j) by congruence.
  assert (Hj1 : <[j:=true]> x !! j' = Some true).
  { by rewrite list_lookup_insert_ne. }
  pose proof (mask_sum_insert (L problem) x j false true Hxlen Hj) as H1.
  pose proof (mask_sum_insert (L problem) (<[j:=true]> x) j' true false
                ltac:(by rewrite length_insert) Hj1) as H2.
  fold y in H2. cbv beta iota in H1, H2.
  eexists _, _, j, j'.
  split; [unfold SubsetProblem_evaluate, mask_index; by rewrite decide_True|].
  split.
  { unfold SubsetProblem_evaluate, mask_index.
    rewrite decide_True by (by rewrite Hlen). done. }
  split; [done|]. split; [done|]. split; [done|]. simpl. split.
  - by rewrite !count_true_n_selected, Hcount.
  - rewrite !np_sum_wrap.
    replace (Int64.wrap (sumZ (mask_take (L problem) x))
             + weight (L problem) j - weight (L problem) j')%Z
      with (Int64.wrap (sumZ (mask_take (L problem) x))
            + (weight (L problem) j - weight (L problem) j'))%Z by lia.
    rewrite Int64_wrap_add_l. f_equal. lia.
Qed.

Lemma MyMutation_evaluation_witness :
  returns (MyMutation_do (rng:=nat) [cand_a])
    (Forall2 (fun x y =>
       exists out out' j j',
         SubsetProblem_evaluate toy x = Ok out
         /\ SubsetProblem_evaluate toy y = Ok out'
         /\ x !! j = Some false /\ x !! j' = Some true
         /\ y = <[j':=false]> (<[j:=true]> x)
         /\ G out' = G out
         /\ F out' = Int64.wrap (F out + weight (L toy) j
                                 - weight (L toy) j')) [cand_a]).
Proof.
  apply (MyMutation_evaluation (rng:=nat) toy [cand_a]).
  repeat constructor. vm_compute. intros [Hz|Hz]; discriminate.
Defined.

(** ** The operators in sequence *)

Lemma feasible_evaluates_zero problem x :
  feasible problem x ->
  exists out, SubsetProblem_evaluate problem x = Ok out /\ G out = 0%Z.
Proof.
  intros [Hlen Hcount]. unfold SubsetProblem_evaluate, mask_index.
  rewrite decide_True by done. simpl. eexists. split; [done|]. simpl.
  rewrite count_true_n_selected, Hcount. unfold Int64.sub.
  by rewrite Z.sub_diag.
Qed.

Lemma mirror_pairing_members (X : list (list bool)) :
  Forall (fun parents => parents.1 ∈ X /\ parents.2 ∈ X) (mirror_pairing X).
Proof.
  apply Forall_forall. intros [p1 p2] Hin. unfold mirror_pairing in Hin. simpl.
  split.
  - by apply elem_of_zip_l in Hin.
  - apply elem_of_zip_r in Hin. by rewrite elem_of_reverse in Hin.
Qed.

(** X10.  With a target count [0 < n_max < n_var], sampling a population,
    crossing any matings formed from the sampled candidates, and mutating
    the offsprings never raises, and every resulting candidate has exactly
    [n_max] selected positions and evaluates to a constraint violation of
    zero: the three operators together never leave the feasible set. *)
Theorem first_offsprings_feasible {rng : Type} `{RandomState rng}
    (problem : SubsetProblem)
    (pairing : list (list bool) -> list (list bool * list bool))
    (n_samples : nat) :
  (0 < n_max problem < Z.of_nat (n_var problem))%Z ->
  (forall X, Forall (fun parents => parents.1 ∈ X /\ parents.2 ∈ X) (pairing X)) ->
  returns (first_offsprings problem pairing n_samples)
    (Forall (fun y =>
       feasible problem y
       /\ exists out, SubsetProblem_evaluate problem y = Ok out /\ G out = 0%Z)).
Proof.
  intros Hn Hpairing. unfold first_offsprings.
  eapply returns_bind; [apply MySampling_do_feasible; lia|].
  intros X [_ HX].
  assert (Hparents : Forall (fun parents => feasible problem parents.1
                                            /\ feasible problem parents.2)
                       (pairing X)).
  { eapply Forall_impl; [apply Hpairing|]. intros [p1 p2] [H1 H2]. simpl in *.
    rewrite Forall_forall in HX. split; by apply HX. }
  eapply returns_bind; [by apply BinaryCrossover_do_feasible|].
  intros offsprings Hoff.
  assert (Hfeas : Forall (feasible problem) offsprings).
  { eapply Forall2_Forall_r; [exact Hoff|]. apply Forall_forall.
    intros [p1 p2] _ off Hpost. split; apply Hpost. }
  eapply returns_weaken.
  - apply MyMutation_do_returns. eapply Forall_impl; [exact Hfeas|].
    intros x Hx. by eapply feasible_not_degenerate.
  - intros Y HY. eapply Forall2_Forall_r; [exact HY|].
    eapply Forall_impl; [exact Hfeas|]. intros x [Hxl Hxc] y [Hyl Hyc].
    assert (Hy : feasible problem y).
    { split; [by rewrite Hyl | by rewrite Hyc]. }
    split; [done|]. by apply feasible_evaluates_zero.
Qed.

Lemma first_offsprings_feasible_witness :
  returns (first_offsprings (rng:=nat) toy mirror_pairing 4)
    (Forall (fun y =>
       feasible toy y
       /\ exists out, SubsetProblem_evaluate toy y = Ok out /\ G out = 0%Z)).
Proof.
  apply (first_offsprings_feasible (rng:=nat) toy mirror_pairing 4).
  - vm_compute. split; reflexivity.
  - apply mirror_pairing_members.
Defined.

(** ** Evaluation in 64 bits *)

Lemma Int64_wrap_range z : Int64.in_range (Int64.wrap z).
Proof.
  unfold Int64.in_range, Int64.wrap, Int64.half, Int64.modulus.
  pose proof (Z.mod_pos_bound (z + 2 ^ 63) (2 ^ 64)). lia.
Qed.

Lemma Int64_wrap_congr z : (Int64.modulus | Int64.wrap z - z)%Z.
Proof.
  unfold Int64.wrap, Int64.half, Int64.modulus.
  exists (- ((z + 2 ^ 63) / 2 ^ 64))%Z.
  pose proof (Z.div_mod (z + 2 ^ 63) (2 ^ 64)). lia.
Qed.

(** X11.  For int64 weights and an [n_max] that fits int64, evaluation of
    a candidate of the problem's length never raises, overflow included:
    both results are 64-bit values, equal modulo [2^64] to the exact sum
    of the selected weights and to the exact square of [n_max] minus the
    number of selected positions. *)
Theorem SubsetProblem_evaluate_int64 (problem : SubsetProblem) (x : list bool) :
  Forall Int64.in_range (L problem) ->
  Int64.in_range (n_max problem) ->
  length x = n_var problem ->
  exists out,
    SubsetProblem_evaluate problem x = Ok out
    /\ Int64.in_range (F out) /\ Int64.in_range (G out)
    /\ (Int64.modulus | F out - selected_weight (L problem) x)%Z
    /\ (Int64.modulus
        | G out - (n_max problem - Z.of_nat (n_selected x)) ^ 2)%Z.
Proof.
  intros _ _ Hlen. unfold SubsetProblem_evaluate, mask_index.
  rewrite decide_True by done. simpl. eexists. split; [done|]. simpl.
  rewrite np_sum_wrap, count_true_n_selected, <- selected_weight_mask_take by done.
  split; [apply Int64_wrap_range|]. split; [apply Int64_wrap_range|].
  split; [apply Int64_wrap_congr|].
  unfold Int64.square, Int64.sub.
  set (d := (n_max problem - Z.of_nat (n_selected x))%Z).
  destruct (Int64_wrap_congr d) as [a Ha].
  destruct (Int64_wrap_congr (Int64.wrap d ^ 2)) as [b Hb].
  exists (b + a * (2 * d + a * Int64.modulus))%Z.
  replace (Int64.wrap d) with (d + a * Int64.modulus)%Z in * by lia.
  lia.
Qed.

(** Two weights whose sum overflows, and a target count whose square
    overflows. *)
Lemma SubsetProblem_evaluate_int64_witness :
  let problem := {| L := [2 ^ 62; 2 ^ 62]%Z; n_max := 2 ^ 32 + 2;
                    L_size := eq_refl |} in
  exists out,
    SubsetProblem_evaluate problem [true; true] = Ok out
    /\ Int64.in_range (F out) /\ Int64.in_range (G out)
    /\ (Int64.modulus | F out - selected_weight (L problem) [true; true])%Z
    /\ (Int64.modulus
        | G out - (n_max problem - Z.of_nat (n_selected [true; true])) ^ 2)%Z.
Proof.
  apply (SubsetProblem_evaluate_int64
           {| L := [2 ^ 62; 2 ^ 62]%Z; n_max := 2 ^ 32 + 2; L_size := eq_refl |}
           [true; true]).
  - repeat constructor; vm_compute; discriminate || reflexivity.
  - vm_compute. split; [discriminate | reflexivity].
  - reflexivity.
Defined.

